(** * Game-tree search players for N-in-a-row: minimax and alpha-beta

    A shallow embedding of [players.py] ([MinMaxPlayer] and
    [AlphaBetaPlayer]) together with the properties of the two searches:
    agreement of their decisions, leaf-evaluation counts, leaf scoring,
    the behaviour on boards without a legal column, the tie-break of the
    root loops, the nesting of the recursive evaluator and the legality
    guard in front of every move. *)

From Stdlib Require Import ZArith List Bool Lia.
From Stdlib Require String Ascii.
Import ListNotations.

Open Scope Z_scope.

(** ** Board *)

(** Modelled from the spec: [board.py] is not among the sources.  A board
    is its grid of cells, one list per column, each column listed from its
    lowest cell upwards; a cell holds 0 (empty), 1 or 2.  [width] is the
    number of columns, [is_valid] holds of a column that has at least one
    empty cell, and [get_new_board] returns a new board with the piece in
    the lowest empty cell of the column; the given board is a value and is
    never changed. *)
Definition Board := list (list Z).

Definition width (b : Board) : nat := length b.

Definition get_board_state (b : Board) : list (list Z) := b.

Definition has_empty (col : list Z) : bool := existsb (Z.eqb 0) col.

Definition is_valid (b : Board) (c : nat) : bool := has_empty (nth c b []).

Fixpoint drop_piece (col : list Z) (p : Z) : list Z :=
  match col with
  | [] => []
  | x :: rest => if x =? 0 then p :: rest else x :: drop_piece rest p
  end.

Fixpoint get_new_board (b : Board) (c : nat) (p : Z) : Board :=
  match b, c with
  | [], _ => []
  | col :: rest, O => drop_piece col p :: rest
  | col :: rest, S c' => col :: get_new_board rest c' p
  end.

(** Number of empty cells of a column and of a board: the measure that
    decreases along every line of play. *)
Definition count_empty (col : list Z) : nat := length (filter (Z.eqb 0) col).

Definition empty_cells (b : Board) : nat := list_sum (map count_empty b).

(** Python's [range(n)]. *)
Definition range (n : nat) : list nat := seq 0 n.

(** ** Instrumented results *)

(** What a run does besides computing its value is kept in a log:
    - [Eval pid b]: one call [evaluate_board(pid, b)], that is one
      increment of the heuristic's [eval_count];
    - [Move b c pid]: one call [b.get_new_board(c, pid)];
    - [Cutoff b c skipped]: one executed [break] in a loop over the columns
      of [b], after column [c], with [skipped] the legal columns of [b]
      that the loop had not reached;
    - [Root c v]: the value [v] that a root loop obtained for column [c]. *)
Inductive event : Type :=
| Eval (pid : Z) (b : Board)
| Move (b : Board) (c : nat) (pid : Z)
| Cutoff (b : Board) (c : nat) (skipped : list nat)
| Root (c : nat) (v : Z).

Definition log := list event.

(** A computation returns its value and its log, or [None] when the nesting
    of recursive calls exceeds the frames it was given. *)
Definition M (A : Type) : Type := option (A * log).

Definition ret {A : Type} (a : A) : M A := Some (a, []).

Definition bind {A B : Type} (m : M A) (f : A -> M B) : M B :=
  match m with
  | None => None
  | Some (a, t1) =>
      match f a with
      | None => None
      | Some (b, t2) => Some (b, t1 ++ t2)
      end
  end.

Definition emit (e : event) : M unit := Some (tt, [e]).

Notation "x <- m ;; k" := (bind m (fun x => k))
  (at level 61, m at next level, right associativity).
Notation "m ;;; k" := (bind m (fun _ => k))
  (at level 61, right associativity).

Definition is_eval (e : event) : bool :=
  match e with Eval _ _ => true | _ => false end.

Definition is_cutoff (e : event) : bool :=
  match e with Cutoff _ _ _ => true | _ => false end.

(** Number of heuristic leaf evaluations of a run. *)
Definition n_evals (t : log) : nat := length (filter is_eval t).

(** Number of executed cutoffs of a run. *)
Definition n_cutoffs (t : log) : nat := length (filter is_cutoff t).

(** Number of legal columns that the cutoffs of a run left unexamined. *)
Fixpoint n_skipped (t : log) : nat :=
  match t with
  | [] => 0
  | Cutoff _ _ skipped :: t' => length skipped + n_skipped t'
  | _ :: t' => n_skipped t'
  end.

(** The values of the root columns, in the order the root loop got them. *)
Fixpoint root_values (t : log) : list (nat * Z) :=
  match t with
  | [] => []
  | Root c v :: t' => (c, v) :: root_values t'
  | _ :: t' => root_values t'
  end.

(** The boards and columns of the moves applied in a run. *)
Fixpoint moves (t : log) : list (Board * nat) :=
  match t with
  | [] => []
  | Move b c _ :: t' => (b, c) :: moves t'
  | _ :: t' => moves t'
  end.

(** The player ids the heuristic was asked to evaluate for. *)
Fixpoint eval_pids (t : log) : list Z :=
  match t with
  | [] => []
  | Eval pid _ :: t' => pid :: eval_pids t'
  | _ :: t' => eval_pids t'
  end.

(** ** Heuristic *)

(** Modelled from the spec: [heuristics.py] is not among the sources.  A
    heuristic is deterministic: [winning state n] is 0 when nobody has
    [n] in a row on [state], and [evaluate pid b] is the signed score of
    [b] for player [pid].  Its only state is the counter [eval_count],
    which [evaluate_board] increments once per call. *)
Record Heuristic : Type := {
  winning : list (list Z) -> Z -> Z;
  evaluate : Z -> Board -> Z
}.

Definition evaluate_board (h : Heuristic) (pid : Z) (b : Board) : M Z :=
  emit (Eval pid b) ;;; ret (evaluate h pid b).

(** The counter after a run that started with [before]. *)
Definition eval_count (before : nat) (t : log) : nat :=
  (before + n_evals t)%nat.

(** [b.get_new_board(c, pid)], logged. *)
Definition apply_move (b : Board) (c : nat) (pid : Z) : M Board :=
  emit (Move b c pid) ;;; ret (get_new_board b c pid).

(** ** Players *)

(** The fields of [PlayerController] and the [depth] of the two search
    players. *)
Record Player : Type := {
  player_id : Z;
  game_n : Z;
  depth : Z;
  heuristic : Heuristic
}.

Module MinMaxPlayer.
Section make_move.

Variable self : Player.

Definition opponent : Z := if player_id self =? 1 then 2 else 1.

Definition terminal_or_depth (b : Board) (depth : Z) : bool :=
  let state := get_board_state b in
  let w := winning (heuristic self) state (game_n self) in
  if negb (w =? 0) || (depth =? 0) then true
  else negb (existsb (is_valid b) (range (width b))).

Definition score (b : Board) : M Z :=
  evaluate_board (heuristic self) (player_id self) b.

(** The loop of the maximizing branch of [rec], from column list [cols]
    on, with [child] the recursive call on the new board. *)
Fixpoint for_max (child : Board -> M Z) (b : Board) (cols : list nat)
    (best : Z) : M Z :=
  match cols with
  | [] => ret best
  | c :: cs =>
      if is_valid b c then
        b' <- apply_move b c (player_id self) ;;
        v <- child b' ;;
        for_max child b cs (Z.max best v)
      else for_max child b cs best
  end.

(** The loop of the minimizing branch of [rec]. *)
Fixpoint for_min (child : Board -> M Z) (b : Board) (cols : list nat)
    (best : Z) : M Z :=
  match cols with
  | [] => ret best
  | c :: cs =>
      if is_valid b c then
        b' <- apply_move b c opponent ;;
        v <- child b' ;;
        for_min child b cs (Z.min best v)
      else for_min child b cs best
  end.

(** [rec], with the number of nested frames it may use. *)
Fixpoint rec (frames : nat) (b : Board) (depth : Z) (maximizing : bool)
    : M Z :=
  match frames with
  | O => None
  | S frames' =>
      if terminal_or_depth b depth then score b
      else if maximizing then
        for_max (fun b' => rec frames' b' (depth - 1) false)
                b (range (width b)) (- 10 ^ 9)
      else
        for_min (fun b' => rec frames' b' (depth - 1) true)
                b (range (width b)) (10 ^ 9)
  end.

(** The root loop of [make_move]. *)
Fixpoint for_root (child : Board -> M Z) (board : Board) (cols : list nat)
    (best_val : Z) (best_col : option nat) : M (Z * option nat) :=
  match cols with
  | [] => ret (best_val, best_col)
  | c :: cs =>
      if is_valid board c then
        b' <- apply_move board c (player_id self) ;;
        v <- child b' ;;
        emit (Root c v) ;;;
        if v >? best_val then for_root child board cs v (Some c)
        else for_root child board cs best_val best_col
      else for_root child board cs best_val best_col
  end.

(** The root loop run from its initial state: the final [best_val] and
    [best_col]. *)
Definition search (frames : nat) (board : Board) : M (Z * option nat) :=
  for_root (fun b' => rec frames b' (depth self - 1) false)
           board (range (width board)) (- 10 ^ 9) None.

Definition make_move_within (frames : nat) (board : Board) : M Z :=
  r <- search frames board ;;
  ret (match snd r with Some c => Z.of_nat c | None => -1 end).

(** A line of play is never longer than the number of empty cells, so
    that many frames are enough for the recursion under the root. *)
Definition make_move (board : Board) : M Z :=
  make_move_within (empty_cells board) board.

End make_move.
End MinMaxPlayer.

Module AlphaBetaPlayer.
Section make_move.

Variable self : Player.

Definition opponent : Z := if player_id self =? 1 then 2 else 1.

Definition terminal_or_depth (b : Board) (depth : Z) : bool :=
  let state := get_board_state b in
  let w := winning (heuristic self) state (game_n self) in
  if negb (w =? 0) || (depth =? 0) then true
  else negb (existsb (is_valid b) (range (width b))).

Definition score (b : Board) : M Z :=
  evaluate_board (heuristic self) (player_id self) b.

(** The loop of the maximizing branch of [rec]. *)
Fixpoint for_max (child : Board -> Z -> Z -> M Z) (b : Board)
    (cols : list nat) (value alpha beta : Z) : M Z :=
  match cols with
  | [] => ret value
  | c :: cs =>
      if is_valid b c then
        b' <- apply_move b c (player_id self) ;;
        v <- child b' alpha beta ;;
        let value := Z.max value v in
        let alpha := Z.max alpha value in
        if alpha >=? beta
        then emit (Cutoff b c (filter (is_valid b) cs)) ;;; ret value
        else for_max child b cs value alpha beta
      else for_max child b cs value alpha beta
  end.

(** The loop of the minimizing branch of [rec]. *)
Fixpoint for_min (child : Board -> Z -> Z -> M Z) (b : Board)
    (cols : list nat) (value alpha beta : Z) : M Z :=
  match cols with
  | [] => ret value
  | c :: cs =>
      if is_valid b c then
        b' <- apply_move b c opponent ;;
        v <- child b' alpha beta ;;
        let value := Z.min value v in
        let beta := Z.min beta value in
        if alpha >=? beta
        then emit (Cutoff b c (filter (is_valid b) cs)) ;;; ret value
        else for_min child b cs value alpha beta
      else for_min child b cs value alpha beta
  end.

Fixpoint rec (frames : nat) (b : Board) (depth : Z) (alpha beta : Z)
    (maximizing : bool) : M Z :=
  match frames with
  | O => None
  | S frames' =>
      if terminal_or_depth b depth then score b
      else if maximizing then
        for_max (fun b' a' b'' => rec frames' b' (depth - 1) a' b'' false)
                b (range (width b)) (- 10 ^ 9) alpha beta
      else
        for_min (fun b' a' b'' => rec frames' b' (depth - 1) a' b'' true)
                b (range (width b)) (10 ^ 9) alpha beta
  end.

(** The root loop of [make_move]. *)
Fixpoint for_root (child : Board -> Z -> Z -> M Z) (board : Board)
    (cols : list nat) (best_val best_col alpha beta : Z) : M (Z * Z) :=
  match cols with
  | [] => ret (best_val, best_col)
  | c :: cs =>
      if is_valid board c then
        b' <- apply_move board c (player_id self) ;;
        v <- child b' alpha beta ;;
        emit (Root c v) ;;;
        let best_col := if v >? best_val then Z.of_nat c else best_col in
        let best_val := if v >? best_val then v else best_val in
        let alpha := Z.max alpha best_val in
        for_root child board cs best_val best_col alpha beta
      else for_root child board cs best_val best_col alpha beta
  end.

Definition search (frames : nat) (board : Board) : M (Z * Z) :=
  for_root (fun b' a' b'' => rec frames b' (depth self - 1) a' b'' false)
           board (range (width board)) (- 10 ^ 9) 0 (- 10 ^ 9) (10 ^ 9).

Definition make_move_within (frames : nat) (board : Board) : M Z :=
  r <- search frames board ;;
  ret (snd r).

Definition make_move (board : Board) : M Z :=
  make_move_within (empty_cells board) board.

End make_move.
End AlphaBetaPlayer.

(** ** Notions used by the statements *)

(** The player ids of the game. *)
Definition valid_player (self : Player) : Prop :=
  player_id self = 1 \/ player_id self = 2.

(** What a value [r] returned for the window [(alpha, beta)] says about the
    minimax value [m] of the same node: above [alpha] it is a lower
    bound, below [beta] an upper bound, and in between it is exact. *)
Definition bounds (alpha beta m r : Z) : Prop :=
  (alpha < r -> r <= m) /\ (r < beta -> m <= r).

(** The events a run of [rec] may log for player [self]: evaluations for
    [self]'s own id, moves into legal columns, cutoffs; no root value. *)
Definition inner_ok (self : Player) (e : event) : Prop :=
  match e with
  | Eval pid _ => pid = player_id self
  | Move b c _ => is_valid b c = true
  | Cutoff _ _ _ => True
  | Root _ _ => False
  end.

(** The same for a run of [make_move], whose root loop logs root values. *)
Definition event_ok (self : Player) (e : event) : Prop :=
  match e with
  | Eval pid _ => pid = player_id self
  | Move b c _ => is_valid b c = true
  | Cutoff _ _ _ => True
  | Root _ _ => True
  end.

(** The columns of a loop are taken in increasing order. *)
Definition increasing (cols : list nat) : Prop :=
  forall l1 c l2, cols = l1 ++ c :: l2 -> forall c', In c' l2 -> (c < c')%nat.

(** [col] is the lowest column among those of [vals] with the greatest
    value, and [v] is that value. *)
Definition first_max (vals : list (nat * Z)) (col : Z) (v : Z) : Prop :=
  exists c, col = Z.of_nat c /\ In (c, v) vals /\
    forall c' x, In (c', x) vals -> x <= v /\ ((c' < c)%nat -> x < v).


(** ** Sample heuristics, players and boards *)

(** A [winning] that reports no winner, as on boards too small for the
    win length. *)
Definition no_winner (state : list (list Z)) (n : Z) : Z := 0.

(** A positional score: a piece in column [i] (from 0) at height [j]
    (from 1) counts [i * j] for its owner and [- (i * j)] against the
    other player. *)
Fixpoint column_score (pid i j : Z) (col : list Z) : Z :=
  match col with
  | [] => 0
  | x :: rest =>
      (if x =? 0 then 0 else if x =? pid then i * j else - (i * j))
      + column_score pid i (j + 1) rest
  end.

Fixpoint board_score (pid i : Z) (b : Board) : Z :=
  match b with
  | [] => 0
  | col :: rest => column_score pid i 1 col + board_score pid (i + 1) rest
  end.

Definition positional : Heuristic :=
  {| winning := no_winner; evaluate := fun pid b => board_score pid 0 b |}.

(** A heuristic whose every score is the value the root loops start
    from. *)
Definition hopeless : Heuristic :=
  {| winning := no_winner; evaluate := fun _ _ => - 10 ^ 9 |}.

(** Player 1 with win length 3, search depth [d] and heuristic [h]. *)
Definition player_one (h : Heuristic) (d : Z) : Player :=
  {| player_id := 1; game_n := 3; depth := d; heuristic := h |}.

(** Two columns of two cells: empty, full, and with only the second
    column free. *)
Definition empty_2x2 : Board := [[0; 0]; [0; 0]].

Definition full_2x2 : Board := [[1; 2]; [2; 1]].

Definition left_full_2x2 : Board := [[1; 2]; [0; 0]].

(** What the statements about sample runs look at: the returned value, the
    leaf evaluations, the cutoffs and the root values. *)
Definition summary {A : Type} (m : M A)
    : option (A * nat * nat * list (nat * Z)) :=
  match m with
  | Some (a, t) => Some (a, n_evals t, n_cutoffs t, root_values t)
  | None => None
  end.

(** ** The rest of [players.py] *)

Module PlayerController.
Import String.

(** [__str__], which reads only [self.player_id]. *)
Definition __str__ (player_id : Z) : string :=
  if (player_id =? 1)%Z then "X"%string else "O"%string.

End PlayerController.

(** What a console dialogue wrote to the standard output: one entry per
    [print] call, with its [end], and one per prompt of [input]. *)
Inductive console : Type :=
| Printed (text : String.string).

Module HumanPlayer.
Import String.
Local Open Scope string_scope.

(** A human player: the fields of [PlayerController], with a heuristic
    that may be [None]. *)
Record t : Type := {
  player_id : Z;
  game_n : Z;
  heuristic : option Heuristic
}.

(** The newline character. *)
Definition nl : string := String (Ascii.ascii_of_nat 10) EmptyString.

Section make_move.

(** Python's [int] on a line of input: [None] where it raises
    [ValueError]. *)
Variable int : string -> option Z.

(** The renderings [print] and the f-strings use, and [get_best_action] of
    [heuristics.py], none of which is among the sources. *)
Variable str_board : Board -> string.
Variable str_heuristic : Heuristic -> string.
Variable str_int : Z -> string.
Variable get_best_action : Heuristic -> Z -> Board -> Z.

Variable self : t.

Definition prompt : string :=
  "Player " ++ PlayerController.__str__ (player_id self) ++ nl
  ++ "Which column would you like to play in?" ++ nl.

Definition not_a_number : string :=
  "Please enter a number that corresponds to a column." ++ nl ++ nl.

Definition not_a_column : string :=
  "Please enter a valid column." ++ nl
  ++ "This column is either full or doesn't exist!" ++ nl ++ nl.

(** [ask_input] on the lines [entries] that the user will type: what it
    writes, and the column it returns with the lines left over, or [None]
    when the lines end before one is accepted.  Each retry is the
    recursive call of the source. *)
Fixpoint ask_input (board : Board) (entries : list string)
    : list console * option (Z * list string) :=
  match entries with
  | [] => ([Printed prompt], None)
  | entry :: rest =>
      match int entry with
      | Some col =>
          if ((0 <? col) && (col <=? Z.of_nat (width board))
              && is_valid board (Z.to_nat (col - 1)))%Z%bool
          then ([Printed prompt], Some (col, rest))
          else
            let (out, r) := ask_input board rest in
            (Printed prompt :: Printed not_a_column :: out, r)
      | None =>
          let (out, r) := ask_input board rest in
          (Printed prompt :: Printed not_a_number :: out, r)
      end
  end.

(** The line [make_move] prints for the column it got, counted from 1. *)
Definition selected (col : Z) : string :=
  "Selected column: " ++ str_int col ++ nl.

(** What [make_move] prints before it asks: the board and, with a
    heuristic, its advice. *)
Definition shown (board : Board) : list console :=
  Printed (str_board board ++ nl)
  :: match heuristic self with
     | Some h =>
         [Printed ("Heuristic " ++ str_heuristic h
                   ++ " calculated the best move is:" ++ " ");
          Printed (str_int (get_best_action h (player_id self) board + 1)
                   ++ nl ++ nl)]
     | None => []
     end.

Definition make_move (board : Board) (entries : list string)
    : list console * option (Z * list string) :=
  let (asked, r) := ask_input board entries in
  match r with
  | Some (col, rest) =>
      ((shown board ++ asked ++ [Printed (selected col)])%list,
       Some (col - 1, rest))
  | None => ((shown board ++ asked)%list, None)
  end.

End make_move.
End HumanPlayer.

(** ** [requirements.py] *)

(** Modelled from the spec: the constructors of [board.py].
    [Board(width, height)] is the empty board of that many columns and
    rows, [Board(state)] the board of a grid, and [height] the number of
    rows. *)
Definition new_board (w h : nat) : Board := repeat (repeat 0 h) w.

Definition board_of_state (state : list (list Z)) : Board := state.

Definition height (b : Board) : nat := length (hd [] b).

(** Number of cells of a board that hold [p]. *)
Definition count_cells (p : Z) (b : Board) : nat :=
  list_sum (map (fun col => length (filter (Z.eqb p) col)) b).

Module Requirements.

(** The dictionary [measure_one_decision] returns. *)
Record Decision : Type := {
  nodes_minimax : nat;
  nodes_alphabeta : nat;
  time_minimax_ns : Z;
  time_alphabeta_ns : Z
}.

(** A row of [sweep_experiments]: the five keys of the run and the
    dictionary of [measure_one_decision] merged into it. *)
Module SweepRow.
Record t : Type := {
  width : nat;
  height : nat;
  N : Z;
  depth : Z;
  seed : Z;
  res : Decision
}.
End SweepRow.

Section experiments.

(** [SimpleHeuristic(game_n)] of [heuristics.py]. *)
Variable SimpleHeuristic : Z -> Heuristic.

(** [random.Random(seed)] and its [choice], with the generator passed on
    explicitly. *)
Variable Rng : Type.
Variable Random : Z -> Rng.
Variable choice : Rng -> list nat -> nat * Rng.

(** The successive readings of [time.perf_counter_ns()]. *)
Variable perf_counter_ns : nat -> Z.

(** The loop of [random_midgame], with [n] iterations left. *)
Fixpoint play (game_n : Z) (n : nat) (rng : Rng) (cur : Board) (player : Z)
    : Board :=
  match n with
  | O => cur
  | S n' =>
      let legal := filter (is_valid cur) (range (width cur)) in
      match legal with
      | [] => cur
      | _ :: _ =>
          let (col, rng') := choice rng legal in
          let cur' := get_new_board cur col player in
          let h := SimpleHeuristic game_n in
          if negb (winning h (get_board_state cur') game_n =? 0) then cur'
          else play game_n n' rng' cur' (if player =? 1 then 2 else 1)
      end
  end.

Definition random_midgame (board : Board) (game_n plies seed : Z) : Board :=
  let rng := Random seed in
  let cur := new_board (width board) (height board) in
  play game_n (Z.to_nat plies) rng cur 1.

(** [measure_one_decision], with [clock] the number of readings of the
    clock taken before it. *)
Definition measure_one_decision (clock : nat) (state : Board)
    (game_n depth : Z) : option Decision :=
  let h_min := SimpleHeuristic game_n in
  let h_ab := SimpleHeuristic game_n in
  let p_min := {| player_id := 1; game_n := game_n; depth := depth;
                  heuristic := h_min |} in
  let p_ab := {| player_id := 1; game_n := game_n; depth := depth;
                 heuristic := h_ab |} in
  let t0 := perf_counter_ns clock in
  match MinMaxPlayer.make_move p_min (board_of_state (get_board_state state))
  with
  | None => None
  | Some (_, tm) =>
      let t1 := perf_counter_ns (clock + 1) in
      let t2 := perf_counter_ns (clock + 2) in
      match AlphaBetaPlayer.make_move p_ab
              (board_of_state (get_board_state state)) with
      | None => None
      | Some (_, ta) =>
          let t3 := perf_counter_ns (clock + 3) in
          Some {| nodes_minimax := eval_count 0 tm;
                  nodes_alphabeta := eval_count 0 ta;
                  time_minimax_ns := t1 - t0;
                  time_alphabeta_ns := t3 - t2 |}
      end
  end.

(** The runs of [sweep_experiments] in the order of its four nested
    loops: width, height, win length, depth and seed index of each. *)
Definition runs (depths : list Z) (sizes : list (nat * nat)) (Ns : list Z)
    (seeds : Z) : list (nat * nat * Z * Z * Z) :=
  flat_map (fun size =>
    flat_map (fun n =>
      flat_map (fun d =>
        map (fun s => (fst size, snd size, n, d, Z.of_nat s))
            (range (Z.to_nat seeds)))
        depths)
      Ns)
    sizes.

(** The body of the innermost loop, run over [todo] with the clock read
    four times per run. *)
Fixpoint rows_of (prefill_moves : Z) (clock : nat)
    (todo : list (nat * nat * Z * Z * Z)) : option (list SweepRow.t) :=
  match todo with
  | [] => Some []
  | (W, H, n, d, s) :: rest =>
      let base := new_board W H in
      let state := random_midgame base n prefill_moves (10000 + s) in
      match measure_one_decision clock state n d with
      | None => None
      | Some res =>
          match rows_of prefill_moves (clock + 4) rest with
          | None => None
          | Some rows =>
              Some ({| SweepRow.width := W; SweepRow.height := H; SweepRow.N :=
                  n;
                       SweepRow.depth := d; SweepRow.seed := s; SweepRow.res :=
                           res |}
                    :: rows)
          end
      end
  end.

Definition sweep_experiments (depths : list Z) (sizes : list (nat * nat))
    (Ns : list Z) (seeds prefill_moves : Z) : option (list SweepRow.t) :=
  rows_of prefill_moves 0 (runs depths sizes Ns seeds).

End experiments.
End Requirements.

(** ** Samples for the rest of the code *)

(** A human player 1 without a heuristic. *)
Definition human_one : HumanPlayer.t :=
  {| HumanPlayer.player_id := 1; HumanPlayer.game_n := 3;
     HumanPlayer.heuristic := None |}.

Module Sample.
Import String.

(** A reading of input lines that knows the digits 1 to 3. *)
Definition small_int (s : string) : option Z :=
  if String.eqb s "1"%string then Some 1
  else if String.eqb s "2"%string then Some 2
  else if String.eqb s "3"%string then Some 3
  else None.

(** Lines a user may type. *)
Definition typed : list string := ["x"; "3"; "1"; "2"]%string.

End Sample.

(** A generator that counts its draws and takes the element of the list
    at that position, wrapping around. *)
Definition round_robin (rng : nat) (l : list nat) : nat * nat :=
  (nth (rng mod length l) l O, S rng).

(** ** Notions used by the further statements *)


(** Two runs that visit the same nodes: the same moves in the same order
    and as many leaf evaluations. *)
Definition same_visits (t t' : log) : Prop :=
  n_evals t = n_evals t' /\ moves t = moves t'.

(** The legal columns of a board, in increasing order. *)
Definition legal_columns (b : Board) : list nat :=
  filter (is_valid b) (range (width b)).

(** The lines [ask_input] accepts: a number of a column, counted from 1,
    that is on the board and not full. *)
Definition acceptable (int : String.string -> option Z) (board : Board)
    (entry : String.string) : bool :=
  match int entry with
  | Some col =>
      (0 <? col) && (col <=? Z.of_nat (width board))
      && is_valid board (Z.to_nat (col - 1))
  | None => false
  end.

(** What [ask_input] writes for the lines it rejects, one prompt and one
    complaint each. *)
Definition complaints (int : String.string -> option Z) (self : HumanPlayer.t)
    (rejected : list String.string) : list console :=
  flat_map (fun entry =>
              [Printed (HumanPlayer.prompt self);
               Printed (match int entry with
                        | Some _ => HumanPlayer.not_a_column
                        | None => HumanPlayer.not_a_number
                        end)])
           rejected.

(** * Properties *)

(** ** The log monad *)

Lemma bind_Some {A B : Type} (m : M A) (f : A -> M B) (y : B) (t : log) :
  bind m f = Some (y, t) ->
  exists x t1 t2, m = Some (x, t1) /\ f x = Some (y, t2) /\ t = t1 ++ t2.
Proof.
  unfold bind. destruct m as [[x t1]|]; [|discriminate].
  destruct (f x) as [[y' t2]|] eqn:E; [|discriminate].
  intros H. injection H as <- <-. exists x, t1, t2. auto.
Qed.

Lemma bind_Some_intro {A B : Type} (m : M A) (f : A -> M B) x t1 y t2 :
  m = Some (x, t1) -> f x = Some (y, t2) -> bind m f = Some (y, t1 ++ t2).
Proof. intros -> H. unfold bind. now rewrite H. Qed.

Lemma apply_move_eq (b : Board) (c : nat) (pid : Z) :
  apply_move b c pid = Some (get_new_board b c pid, [Move b c pid]).
Proof. reflexivity. Qed.

Lemma evaluate_board_eq (h : Heuristic) (pid : Z) (b : Board) :
  evaluate_board h pid b = Some (evaluate h pid b, [Eval pid b]).
Proof. reflexivity. Qed.

Lemma n_evals_app (t1 t2 : log) :
  n_evals (t1 ++ t2) = (n_evals t1 + n_evals t2)%nat.
Proof. unfold n_evals. now rewrite filter_app, length_app. Qed.

Lemma n_cutoffs_app (t1 t2 : log) :
  n_cutoffs (t1 ++ t2) = (n_cutoffs t1 + n_cutoffs t2)%nat.
Proof. unfold n_cutoffs. now rewrite filter_app, length_app. Qed.

Lemma n_skipped_app (t1 t2 : log) :
  n_skipped (t1 ++ t2) = (n_skipped t1 + n_skipped t2)%nat.
Proof.
  induction t1 as [|e t1 IH]; simpl; [reflexivity|].
  destruct e; auto. rewrite IH. lia.
Qed.

Lemma root_values_app (t1 t2 : log) :
  root_values (t1 ++ t2) = root_values t1 ++ root_values t2.
Proof.
  induction t1 as [|e t1 IH]; simpl; [reflexivity|].
  destruct e; simpl; auto. now rewrite IH.
Qed.

Lemma moves_app (t1 t2 : log) : moves (t1 ++ t2) = moves t1 ++ moves t2.
Proof.
  induction t1 as [|e t1 IH]; simpl; [reflexivity|].
  destruct e; simpl; auto. now rewrite IH.
Qed.

Lemma eval_pids_app (t1 t2 : log) :
  eval_pids (t1 ++ t2) = eval_pids t1 ++ eval_pids t2.
Proof.
  induction t1 as [|e t1 IH]; simpl; [reflexivity|].
  destruct e; simpl; auto. now rewrite IH.
Qed.

Lemma bind_move {A : Type} (b : Board) (c : nat) (pid : Z) (k : Board -> M A) :
  (b' <- apply_move b c pid ;; k b')
  = match k (get_new_board b c pid) with
    | Some (y, t) => Some (y, Move b c pid :: t)
    | None => None
    end.
Proof. reflexivity. Qed.

Lemma bind_emit {A : Type} (e : event) (k : M A) :
  (emit e ;;; k)
  = match k with Some (y, t) => Some (y, e :: t) | None => None end.
Proof. reflexivity. Qed.

Lemma bind_eq {A B : Type} (m : M A) (f : A -> M B) x t1 :
  m = Some (x, t1) ->
  bind m f
  = match f x with Some (y, t2) => Some (y, t1 ++ t2) | None => None end.
Proof. now intros ->. Qed.

(** Inversion of one iteration of a loop body: a logged move followed by
    the rest. *)
Lemma move_then_Some {A : Type} (b : Board) (c : nat) (pid : Z)
    (k : Board -> M A) (y : A) (t : log) :
  (b' <- apply_move b c pid ;; k b') = Some (y, t) ->
  exists t', k (get_new_board b c pid) = Some (y, t') /\ t = Move b c pid :: t'.
Proof.
  intros H. apply bind_Some in H as (x & t1 & t2 & H1 & H2 & ->).
  rewrite apply_move_eq in H1. injection H1 as <- <-. now exists t2.
Qed.

Lemma emit_then_Some {A : Type} (e : event) (k : M A) (y : A) (t : log) :
  (emit e ;;; k) = Some (y, t) ->
  exists t', k = Some (y, t') /\ t = e :: t'.
Proof.
  intros H. apply bind_Some in H as (x & t1 & t2 & H1 & H2 & ->).
  injection H1 as _ <-. now exists t2.
Qed.

(** ** The board *)

Lemma has_empty_drop (col : list Z) (p : Z) :
  has_empty col = true -> p <> 0 ->
  S (count_empty (drop_piece col p)) = count_empty col.
Proof.
  unfold count_empty, has_empty. intros H Hp.
  induction col as [|x rest IH]; [discriminate|].
  cbn [existsb drop_piece filter] in *.
  destruct (Z.eqb_spec x 0) as [->|Hx].
  - cbn [filter]. change (0 =? 0) with true.
    destruct (Z.eqb_spec 0 p); [lia|]. reflexivity.
  - cbn [filter]. destruct (Z.eqb_spec 0 x); [lia|].
    apply IH. exact H.
Qed.

Lemma is_valid_lt (b : Board) (c : nat) :
  is_valid b c = true -> (c < width b)%nat.
Proof.
  unfold is_valid, width. intros H.
  destruct (Nat.lt_ge_cases c (length b)) as [|Hge]; [assumption|].
  rewrite nth_overflow in H by assumption. discriminate.
Qed.

Lemma get_new_board_empty_cells (b : Board) (c : nat) (p : Z) :
  is_valid b c = true -> p <> 0 ->
  S (empty_cells (get_new_board b c p)) = empty_cells b.
Proof.
  unfold is_valid, empty_cells. revert c.
  induction b as [|col rest IH]; intros [|c] H Hp; simpl in *;
    try discriminate.
  - rewrite <- (has_empty_drop col p H Hp). lia.
  - rewrite <- (IH c H Hp). lia.
Qed.

Lemma no_valid_filter (b : Board) (cols : list nat) :
  existsb (is_valid b) cols = false -> filter (is_valid b) cols = [].
Proof.
  induction cols as [|c cs IH]; simpl; [reflexivity|].
  destruct (is_valid b c); simpl; [discriminate|auto].
Qed.

Lemma some_valid_filter (b : Board) (cols : list nat) :
  existsb (is_valid b) cols = true ->
  (1 <= length (filter (is_valid b) cols))%nat.
Proof.
  induction cols as [|c cs IH]; simpl; [discriminate|].
  destruct (is_valid b c); simpl; [lia|auto].
Qed.

(** ** One iteration of each loop *)

Section Steps.

Variable self : Player.

Lemma mm_for_max_skip (child : Board -> M Z) b c cs best :
  is_valid b c = false ->
  MinMaxPlayer.for_max self child b (c :: cs) best
  = MinMaxPlayer.for_max self child b cs best.
Proof. intros H. simpl. now rewrite H. Qed.

Lemma mm_for_max_step (child : Board -> M Z) b c cs best v tv :
  is_valid b c = true ->
  child (get_new_board b c (player_id self)) = Some (v, tv) ->
  MinMaxPlayer.for_max self child b (c :: cs) best
  = match MinMaxPlayer.for_max self child b cs (Z.max best v) with
    | Some (r, tr) => Some (r, Move b c (player_id self) :: tv ++ tr)
    | None => None
    end.
Proof.
  intros H Hc. cbn [MinMaxPlayer.for_max].
  rewrite H, bind_move, (bind_eq _ _ _ _ Hc).
  now destruct (MinMaxPlayer.for_max self child b cs (Z.max best v)) as [[r
      tr]|].
Qed.

Lemma mm_for_max_inv (child : Board -> M Z) b c cs best r t :
  is_valid b c = true ->
  MinMaxPlayer.for_max self child b (c :: cs) best = Some (r, t) ->
  exists v tv tr,
    child (get_new_board b c (player_id self)) = Some (v, tv) /\
    MinMaxPlayer.for_max self child b cs (Z.max best v) = Some (r, tr) /\
    t = Move b c (player_id self) :: tv ++ tr.
Proof.
  intros H Hr. cbn [MinMaxPlayer.for_max] in Hr. rewrite H in Hr.
  apply move_then_Some in Hr as (t' & Hr & ->).
  apply bind_Some in Hr as (v & tv & tr & Hc & Hl & ->).
  now exists v, tv, tr.
Qed.

Lemma mm_for_min_skip (child : Board -> M Z) b c cs best :
  is_valid b c = false ->
  MinMaxPlayer.for_min self child b (c :: cs) best
  = MinMaxPlayer.for_min self child b cs best.
Proof. intros H. simpl. now rewrite H. Qed.

Lemma mm_for_min_step (child : Board -> M Z) b c cs best v tv :
  is_valid b c = true ->
  child (get_new_board b c (MinMaxPlayer.opponent self)) = Some (v, tv) ->
  MinMaxPlayer.for_min self child b (c :: cs) best
  = match MinMaxPlayer.for_min self child b cs (Z.min best v) with
    | Some (r, tr) =>
        Some (r, Move b c (MinMaxPlayer.opponent self) :: tv ++ tr)
    | None => None
    end.
Proof.
  intros H Hc. cbn [MinMaxPlayer.for_min].
  rewrite H, bind_move, (bind_eq _ _ _ _ Hc).
  now destruct (MinMaxPlayer.for_min self child b cs (Z.min best v)) as [[r
      tr]|].
Qed.

Lemma mm_for_min_inv (child : Board -> M Z) b c cs best r t :
  is_valid b c = true ->
  MinMaxPlayer.for_min self child b (c :: cs) best = Some (r, t) ->
  exists v tv tr,
    child (get_new_board b c (MinMaxPlayer.opponent self)) = Some (v, tv) /\
    MinMaxPlayer.for_min self child b cs (Z.min best v) = Some (r, tr) /\
    t = Move b c (MinMaxPlayer.opponent self) :: tv ++ tr.
Proof.
  intros H Hr. cbn [MinMaxPlayer.for_min] in Hr. rewrite H in Hr.
  apply move_then_Some in Hr as (t' & Hr & ->).
  apply bind_Some in Hr as (v & tv & tr & Hc & Hl & ->).
  now exists v, tv, tr.
Qed.

Lemma mm_for_root_skip (child : Board -> M Z) b c cs bv bc :
  is_valid b c = false ->
  MinMaxPlayer.for_root self child b (c :: cs) bv bc
  = MinMaxPlayer.for_root self child b cs bv bc.
Proof. intros H. simpl. now rewrite H. Qed.

Lemma mm_for_root_step (child : Board -> M Z) b c cs bv bc v tv :
  is_valid b c = true ->
  child (get_new_board b c (player_id self)) = Some (v, tv) ->
  MinMaxPlayer.for_root self child b (c :: cs) bv bc
  = match MinMaxPlayer.for_root self child b cs
            (if v >? bv then v else bv) (if v >? bv then Some c else bc) with
    | Some (r, tr) =>
        Some (r, Move b c (player_id self) :: tv ++ Root c v :: tr)
    | None => None
    end.
Proof.
  intros H Hc. cbn [MinMaxPlayer.for_root].
  rewrite H, bind_move, (bind_eq _ _ _ _ Hc), bind_emit.
  destruct (v >? bv);
    now destruct (MinMaxPlayer.for_root self child b cs _ _) as [[r tr]|].
Qed.

Lemma mm_for_root_inv (child : Board -> M Z) b c cs bv bc r t :
  is_valid b c = true ->
  MinMaxPlayer.for_root self child b (c :: cs) bv bc = Some (r, t) ->
  exists v tv tr,
    child (get_new_board b c (player_id self)) = Some (v, tv) /\
    MinMaxPlayer.for_root self child b cs
      (if v >? bv then v else bv) (if v >? bv then Some c else bc)
    = Some (r, tr) /\
    t = Move b c (player_id self) :: tv ++ Root c v :: tr.
Proof.
  intros H Hr. cbn [MinMaxPlayer.for_root] in Hr. rewrite H in Hr.
  apply move_then_Some in Hr as (t' & Hr & ->).
  apply bind_Some in Hr as (v & tv & tr & Hc & Hl & ->).
  apply emit_then_Some in Hl as (tr' & Hl & ->).
  exists v, tv, tr'. repeat split; auto.
  now destruct (v >? bv).
Qed.

Lemma ab_for_max_skip (child : Board -> Z -> Z -> M Z) b c cs value alpha beta :
  is_valid b c = false ->
  AlphaBetaPlayer.for_max self child b (c :: cs) value alpha beta
  = AlphaBetaPlayer.for_max self child b cs value alpha beta.
Proof. intros H. simpl. now rewrite H. Qed.

Lemma ab_for_max_step (child : Board -> Z -> Z -> M Z) b c cs value alpha beta
    v tv :
  is_valid b c = true ->
  child (get_new_board b c (player_id self)) alpha beta = Some (v, tv) ->
  AlphaBetaPlayer.for_max self child b (c :: cs) value alpha beta
  = if Z.max alpha (Z.max value v) >=? beta
    then Some (Z.max value v,
               Move b c (player_id self)
                 :: tv ++ [Cutoff b c (filter (is_valid b) cs)])
    else match AlphaBetaPlayer.for_max self child b cs (Z.max value v)
                 (Z.max alpha (Z.max value v)) beta with
         | Some (r, tr) => Some (r, Move b c (player_id self) :: tv ++ tr)
         | None => None
         end.
Proof.
  intros H Hc. cbn [AlphaBetaPlayer.for_max].
  rewrite H, bind_move, (bind_eq _ _ _ _ Hc). cbv zeta.
  destruct (Z.max alpha (Z.max value v) >=? beta); [reflexivity|].
  now destruct (AlphaBetaPlayer.for_max self child b cs _ _ _) as [[r tr]|].
Qed.

Lemma ab_for_min_skip (child : Board -> Z -> Z -> M Z) b c cs value alpha beta :
  is_valid b c = false ->
  AlphaBetaPlayer.for_min self child b (c :: cs) value alpha beta
  = AlphaBetaPlayer.for_min self child b cs value alpha beta.
Proof. intros H. simpl. now rewrite H. Qed.

Lemma ab_for_min_step (child : Board -> Z -> Z -> M Z) b c cs value alpha beta
    v tv :
  is_valid b c = true ->
  child (get_new_board b c (AlphaBetaPlayer.opponent self)) alpha beta
  = Some (v, tv) ->
  AlphaBetaPlayer.for_min self child b (c :: cs) value alpha beta
  = if alpha >=? Z.min beta (Z.min value v)
    then Some (Z.min value v,
               Move b c (AlphaBetaPlayer.opponent self)
                 :: tv ++ [Cutoff b c (filter (is_valid b) cs)])
    else match AlphaBetaPlayer.for_min self child b cs (Z.min value v)
                 alpha (Z.min beta (Z.min value v)) with
         | Some (r, tr) =>
             Some (r, Move b c (AlphaBetaPlayer.opponent self) :: tv ++ tr)
         | None => None
         end.
Proof.
  intros H Hc. cbn [AlphaBetaPlayer.for_min].
  rewrite H, bind_move, (bind_eq _ _ _ _ Hc). cbv zeta.
  destruct (alpha >=? Z.min beta (Z.min value v)); [reflexivity|].
  now destruct (AlphaBetaPlayer.for_min self child b cs _ _ _) as [[r tr]|].
Qed.

Lemma ab_for_root_skip (child : Board -> Z -> Z -> M Z) b c cs bv bc
    alpha beta :
  is_valid b c = false ->
  AlphaBetaPlayer.for_root self child b (c :: cs) bv bc alpha beta
  = AlphaBetaPlayer.for_root self child b cs bv bc alpha beta.
Proof. intros H. simpl. now rewrite H. Qed.

Lemma ab_for_root_step (child : Board -> Z -> Z -> M Z) b c cs bv bc alpha beta
    v tv :
  is_valid b c = true ->
  child (get_new_board b c (player_id self)) alpha beta = Some (v, tv) ->
  AlphaBetaPlayer.for_root self child b (c :: cs) bv bc alpha beta
  = match AlphaBetaPlayer.for_root self child b cs
            (if v >? bv then v else bv)
            (if v >? bv then Z.of_nat c else bc)
            (Z.max alpha (if v >? bv then v else bv)) beta with
    | Some (r, tr) =>
        Some (r, Move b c (player_id self) :: tv ++ Root c v :: tr)
    | None => None
    end.
Proof.
  intros H Hc. cbn [AlphaBetaPlayer.for_root].
  rewrite H, bind_move, (bind_eq _ _ _ _ Hc), bind_emit. cbv zeta.
  now destruct (AlphaBetaPlayer.for_root self child b cs _ _ _ _) as [[r tr]|].
Qed.

End Steps.

(** ** The minimax evaluator *)

Section MinMaxFacts.

Variable self : Player.

Lemma mm_opponent_nonzero : MinMaxPlayer.opponent self <> 0.
Proof. unfold MinMaxPlayer.opponent. destruct (player_id self =? 1); lia. Qed.

Lemma mm_not_terminal (b : Board) (d : Z) :
  MinMaxPlayer.terminal_or_depth self b d = false ->
  existsb (is_valid b) (range (width b)) = true.
Proof.
  unfold MinMaxPlayer.terminal_or_depth. cbv zeta.
  destruct (negb _ || _); [discriminate|].
  now destruct (existsb _ _).
Qed.

Lemma mm_for_max_total (child : Board -> M Z) b cols :
  (forall c, In c cols -> is_valid b c = true ->
     exists v t, child (get_new_board b c (player_id self)) = Some (v, t)) ->
  forall best, exists r t,
    MinMaxPlayer.for_max self child b cols best = Some (r, t).
Proof.
  induction cols as [|c cs IH]; intros Hc best.
  - now exists best, [].
  - destruct (is_valid b c) eqn:V.
    + destruct (Hc c (or_introl eq_refl) V) as (v & tv & Hv).
      rewrite (mm_for_max_step self child b c cs best v tv V Hv).
      destruct (IH (fun c' H => Hc c' (or_intror H)) (Z.max best v))
        as (r & tr & ->). eauto.
    + rewrite mm_for_max_skip by assumption.
      apply IH. intros c' H. apply Hc. now right.
Qed.

Lemma mm_for_min_total (child : Board -> M Z) b cols :
  (forall c, In c cols -> is_valid b c = true ->
     exists v t,
       child (get_new_board b c (MinMaxPlayer.opponent self)) = Some (v, t)) ->
  forall best, exists r t,
    MinMaxPlayer.for_min self child b cols best = Some (r, t).
Proof.
  induction cols as [|c cs IH]; intros Hc best.
  - now exists best, [].
  - destruct (is_valid b c) eqn:V.
    + destruct (Hc c (or_introl eq_refl) V) as (v & tv & Hv).
      rewrite (mm_for_min_step self child b c cs best v tv V Hv).
      destruct (IH (fun c' H => Hc c' (or_intror H)) (Z.min best v))
        as (r & tr & ->). eauto.
    + rewrite mm_for_min_skip by assumption.
      apply IH. intros c' H. apply Hc. now right.
Qed.

Lemma mm_for_root_total (child : Board -> M Z) b cols :
  (forall c, In c cols -> is_valid b c = true ->
     exists v t, child (get_new_board b c (player_id self)) = Some (v, t)) ->
  forall bv bc, exists r t,
    MinMaxPlayer.for_root self child b cols bv bc = Some (r, t).
Proof.
  induction cols as [|c cs IH]; intros Hc bv bc.
  - now exists (bv, bc), [].
  - destruct (is_valid b c) eqn:V.
    + destruct (Hc c (or_introl eq_refl) V) as (v & tv & Hv).
      rewrite (mm_for_root_step self child b c cs bv bc v tv V Hv).
      destruct (IH (fun c' H => Hc c' (or_intror H))
                   (if v >? bv then v else bv)
                   (if v >? bv then Some c else bc))
        as (r & tr & ->). eauto.
    + rewrite mm_for_root_skip by assumption.
      apply IH. intros c' H. apply Hc. now right.
Qed.

(** With a player id other than 0 every move fills a cell, and the
    evaluator returns within as many frames as the board has empty cells,
    plus one. *)
Lemma mm_rec_total :
  player_id self <> 0 ->
  forall frames b d mx, (empty_cells b < frames)%nat ->
    exists v t, MinMaxPlayer.rec self frames b d mx = Some (v, t).
Proof.
  intros Hp. induction frames as [|frames IH]; intros b d mx Hlt; [lia|].
  cbn [MinMaxPlayer.rec].
  destruct (MinMaxPlayer.terminal_or_depth self b d).
  - unfold MinMaxPlayer.score. rewrite evaluate_board_eq. eauto.
  - destruct mx.
    + apply mm_for_max_total. intros c _ V. apply IH.
      pose proof (get_new_board_empty_cells b c _ V Hp). lia.
    + apply mm_for_min_total. intros c _ V. apply IH.
      pose proof (get_new_board_empty_cells b c _ V mm_opponent_nonzero).
      lia.
Qed.

(** With a depth that is not negative, the evaluator returns within
    [depth + 1] frames, whatever the board. *)
Lemma mm_rec_total_depth :
  forall frames b d mx, 0 <= d < Z.of_nat frames ->
    exists v t, MinMaxPlayer.rec self frames b d mx = Some (v, t).
Proof.
  induction frames as [|frames IH]; intros b d mx Hd; [lia|].
  cbn [MinMaxPlayer.rec].
  destruct (MinMaxPlayer.terminal_or_depth self b d) eqn:T.
  - unfold MinMaxPlayer.score. rewrite evaluate_board_eq. eauto.
  - assert (d <> 0).
    { intros ->. unfold MinMaxPlayer.terminal_or_depth in T.
      cbv zeta in T. change (0 =? 0) with true in T.
      now rewrite orb_true_r in T. }
    destruct mx.
    + apply mm_for_max_total. intros c _ V. apply IH. lia.
    + apply mm_for_min_total. intros c _ V. apply IH. lia.
Qed.

Lemma mm_for_max_ge (child : Board -> M Z) b cols :
  forall best r t,
    MinMaxPlayer.for_max self child b cols best = Some (r, t) -> best <= r.
Proof.
  induction cols as [|c cs IH]; intros best r t H.
  - injection H as <- _. lia.
  - destruct (is_valid b c) eqn:V.
    + apply mm_for_max_inv in H as (v & tv & tr & _ & H & _); [|assumption].
      apply IH in H. lia.
    + rewrite mm_for_max_skip in H by assumption. eauto.
Qed.

Lemma mm_for_min_le (child : Board -> M Z) b cols :
  forall best r t,
    MinMaxPlayer.for_min self child b cols best = Some (r, t) -> r <= best.
Proof.
  induction cols as [|c cs IH]; intros best r t H.
  - injection H as <- _. lia.
  - destruct (is_valid b c) eqn:V.
    + apply mm_for_min_inv in H as (v & tv & tr & _ & H & _); [|assumption].
      apply IH in H. lia.
    + rewrite mm_for_min_skip in H by assumption. eauto.
Qed.

(** Every legal column costs a loop at least one leaf evaluation. *)
Lemma mm_for_max_evals (child : Board -> M Z) b cols :
  (forall b' v t, child b' = Some (v, t) -> (1 <= n_evals t)%nat) ->
  forall best r t,
    MinMaxPlayer.for_max self child b cols best = Some (r, t) ->
    (length (filter (is_valid b) cols) <= n_evals t)%nat.
Proof.
  intros Hc. induction cols as [|c cs IH]; intros best r t H.
  - simpl. lia.
  - cbn [filter]. destruct (is_valid b c) eqn:V.
    + apply mm_for_max_inv in H as (v & tv & tr & Hv & H & ->);
        [|assumption].
      apply IH in H. apply Hc in Hv.
      change (Move b c (player_id self) :: tv ++ tr)
        with ([Move b c (player_id self)] ++ tv ++ tr).
      rewrite !n_evals_app. simpl. lia.
    + rewrite mm_for_max_skip in H by assumption. eauto.
Qed.

Lemma mm_for_min_evals (child : Board -> M Z) b cols :
  (forall b' v t, child b' = Some (v, t) -> (1 <= n_evals t)%nat) ->
  forall best r t,
    MinMaxPlayer.for_min self child b cols best = Some (r, t) ->
    (length (filter (is_valid b) cols) <= n_evals t)%nat.
Proof.
  intros Hc. induction cols as [|c cs IH]; intros best r t H.
  - simpl. lia.
  - cbn [filter]. destruct (is_valid b c) eqn:V.
    + apply mm_for_min_inv in H as (v & tv & tr & Hv & H & ->);
        [|assumption].
      apply IH in H. apply Hc in Hv.
      change (Move b c (MinMaxPlayer.opponent self) :: tv ++ tr)
        with ([Move b c (MinMaxPlayer.opponent self)] ++ tv ++ tr).
      rewrite !n_evals_app. simpl. lia.
    + rewrite mm_for_min_skip in H by assumption. eauto.
Qed.

(** Every call of the evaluator evaluates at least one leaf. *)
Lemma mm_rec_evals :
  forall frames b d mx v t,
    MinMaxPlayer.rec self frames b d mx = Some (v, t) -> (1 <= n_evals t)%nat.
Proof.
  induction frames as [|frames IH]; intros b d mx v t H; [discriminate|].
  cbn [MinMaxPlayer.rec] in H.
  destruct (MinMaxPlayer.terminal_or_depth self b d) eqn:T.
  - unfold MinMaxPlayer.score in H. rewrite evaluate_board_eq in H.
    injection H as _ <-. unfold n_evals. simpl. lia.
  - apply mm_not_terminal, some_valid_filter in T. destruct mx.
    + apply mm_for_max_evals in H; [lia|]. intros b' v' t'. apply IH.
    + apply mm_for_min_evals in H; [lia|]. intros b' v' t'. apply IH.
Qed.

(** A node of the minimizing side that is expanded is worth at most the
    initial [10**9] of its loop. *)
Lemma mm_rec_min_le :
  forall frames b d m t,
    MinMaxPlayer.rec self frames b d false = Some (m, t) ->
    MinMaxPlayer.terminal_or_depth self b d = true \/ m <= 10 ^ 9.
Proof.
  intros [|frames] b d m t H; [discriminate|].
  cbn [MinMaxPlayer.rec] in H.
  destruct (MinMaxPlayer.terminal_or_depth self b d); [now left|right].
  now apply mm_for_min_le in H.
Qed.

End MinMaxFacts.

(** ** Counting in logs *)

Lemma n_evals_Move b c p t : n_evals (Move b c p :: t) = n_evals t.
Proof. reflexivity. Qed.

Lemma n_evals_Root c v t : n_evals (Root c v :: t) = n_evals t.
Proof. reflexivity. Qed.

Lemma n_evals_Cutoff b c s t : n_evals (Cutoff b c s :: t) = n_evals t.
Proof. reflexivity. Qed.

Lemma n_evals_Eval p b t : n_evals (Eval p b :: t) = S (n_evals t).
Proof. reflexivity. Qed.

Lemma n_evals_nil : n_evals [] = 0%nat.
Proof. reflexivity. Qed.

Lemma n_skipped_Move b c p t : n_skipped (Move b c p :: t) = n_skipped t.
Proof. reflexivity. Qed.

Lemma n_skipped_Root c v t : n_skipped (Root c v :: t) = n_skipped t.
Proof. reflexivity. Qed.

Lemma n_skipped_Eval p b t : n_skipped (Eval p b :: t) = n_skipped t.
Proof. reflexivity. Qed.

Lemma n_skipped_Cutoff b c s t :
  n_skipped (Cutoff b c s :: t) = (length s + n_skipped t)%nat.
Proof. reflexivity. Qed.

Lemma n_skipped_nil : n_skipped [] = 0%nat.
Proof. reflexivity. Qed.

Create Rewrite HintDb logs.
#[global] Hint Rewrite n_evals_app n_evals_Move n_evals_Root n_evals_Cutoff
  n_evals_Eval n_evals_nil n_skipped_app n_skipped_Move n_skipped_Root
  n_skipped_Eval n_skipped_Cutoff n_skipped_nil : logs.

(** ** Alpha-beta against minimax *)

Section Pruning.

Variable self : Player.

Lemma ab_for_max_child (child : Board -> Z -> Z -> M Z) b c cs value alpha beta
    r t :
  is_valid b c = true ->
  AlphaBetaPlayer.for_max self child b (c :: cs) value alpha beta = Some (r, t)
      ->
  exists v tv,
    child (get_new_board b c (player_id self)) alpha beta = Some (v, tv).
Proof.
  intros V H. cbn [AlphaBetaPlayer.for_max] in H. rewrite V in H.
  apply move_then_Some in H as (t' & H & _).
  apply bind_Some in H as (v & tv & _ & Hv & _). eauto.
Qed.

Lemma ab_for_min_child (child : Board -> Z -> Z -> M Z) b c cs value alpha beta
    r t :
  is_valid b c = true ->
  AlphaBetaPlayer.for_min self child b (c :: cs) value alpha beta = Some (r, t)
      ->
  exists v tv,
    child (get_new_board b c (AlphaBetaPlayer.opponent self)) alpha beta
    = Some (v, tv).
Proof.
  intros V H. cbn [AlphaBetaPlayer.for_min] in H. rewrite V in H.
  apply move_then_Some in H as (t' & H & _).
  apply bind_Some in H as (v & tv & _ & Hv & _). eauto.
Qed.

Lemma ab_for_root_child (child : Board -> Z -> Z -> M Z) b c cs bv bc alpha
    beta r t :
  is_valid b c = true ->
  AlphaBetaPlayer.for_root self child b (c :: cs) bv bc alpha beta = Some (r,
      t) ->
  exists v tv,
    child (get_new_board b c (player_id self)) alpha beta = Some (v, tv).
Proof.
  intros V H. cbn [AlphaBetaPlayer.for_root] in H. rewrite V in H.
  apply move_then_Some in H as (t' & H & _).
  apply bind_Some in H as (v & tv & _ & Hv & _). eauto.
Qed.

(** *** The pruned loops return, and cost no more *)

Lemma ab_for_max_exists (childm : Board -> M Z)
    (childa : Board -> Z -> Z -> M Z) b beta :
  (forall b' m tm, childm b' = Some (m, tm) ->
     (1 <= n_evals tm)%nat /\
     forall alpha beta', exists r ta,
       childa b' alpha beta' = Some (r, ta) /\
       (n_evals ta + n_skipped ta <= n_evals tm)%nat) ->
  forall cols value alpha best m tm,
    MinMaxPlayer.for_max self childm b cols best = Some (m, tm) ->
    exists r ta,
      AlphaBetaPlayer.for_max self childa b cols value alpha beta = Some (r,
          ta) /\
      (n_evals ta + n_skipped ta <= n_evals tm)%nat.
Proof.
  intros Hc. induction cols as [|c cs IH]; intros value alpha best m tm H.
  - exists value, []. split; [reflexivity|]. simpl. lia.
  - destruct (is_valid b c) eqn:V.
    + apply mm_for_max_inv in H as (v & tv & tr & Hv & H & ->); [|assumption].
      destruct (Hc _ _ _ Hv) as (Hone & Ha).
      destruct (Ha alpha beta) as (r1 & ta1 & Hr1 & Hn1).
      rewrite (ab_for_max_step self childa b c cs value alpha beta r1 ta1 V
          Hr1).
      destruct (Z.max alpha (Z.max value r1) >=? beta).
      * eexists _, _. split; [reflexivity|].
        apply mm_for_max_evals in H.
        -- autorewrite with logs. lia.
        -- intros b' v' t' Hb'. now apply Hc in Hb'.
      * destruct (IH (Z.max value r1) (Z.max alpha (Z.max value r1)) _ _ _ H)
          as (r & ta & -> & Hn).
        eexists _, _. split; [reflexivity|].
        autorewrite with logs. lia.
    + rewrite mm_for_max_skip in H by assumption.
      rewrite ab_for_max_skip by assumption. eauto.
Qed.

Lemma ab_for_min_exists (childm : Board -> M Z)
    (childa : Board -> Z -> Z -> M Z) b alpha :
  (forall b' m tm, childm b' = Some (m, tm) ->
     (1 <= n_evals tm)%nat /\
     forall alpha' beta, exists r ta,
       childa b' alpha' beta = Some (r, ta) /\
       (n_evals ta + n_skipped ta <= n_evals tm)%nat) ->
  forall cols value beta best m tm,
    MinMaxPlayer.for_min self childm b cols best = Some (m, tm) ->
    exists r ta,
      AlphaBetaPlayer.for_min self childa b cols value alpha beta = Some (r,
          ta) /\
      (n_evals ta + n_skipped ta <= n_evals tm)%nat.
Proof.
  intros Hc. induction cols as [|c cs IH]; intros value beta best m tm H.
  - exists value, []. split; [reflexivity|]. simpl. lia.
  - destruct (is_valid b c) eqn:V.
    + apply mm_for_min_inv in H as (v & tv & tr & Hv & H & ->); [|assumption].
      destruct (Hc _ _ _ Hv) as (Hone & Ha).
      destruct (Ha alpha beta) as (r1 & ta1 & Hr1 & Hn1).
      rewrite (ab_for_min_step self childa b c cs value alpha beta r1 ta1 V
          Hr1).
      destruct (alpha >=? Z.min beta (Z.min value r1)).
      * eexists _, _. split; [reflexivity|].
        apply mm_for_min_evals in H.
        -- autorewrite with logs. lia.
        -- intros b' v' t' Hb'. now apply Hc in Hb'.
      * destruct (IH (Z.min value r1) (Z.min beta (Z.min value r1)) _ _ _ H)
          as (r & ta & -> & Hn).
        eexists _, _. split; [reflexivity|].
        autorewrite with logs. lia.
    + rewrite mm_for_min_skip in H by assumption.
      rewrite ab_for_min_skip by assumption. eauto.
Qed.

(** Whenever minimax returns within some frames, so does alpha-beta, for
    every window, and its leaf evaluations plus the legal columns its
    cutoffs skipped are no more than the leaf evaluations of minimax. *)
Lemma ab_rec_exists :
  forall frames b d mx m tm,
    MinMaxPlayer.rec self frames b d mx = Some (m, tm) ->
    forall alpha beta, exists r ta,
      AlphaBetaPlayer.rec self frames b d alpha beta mx = Some (r, ta) /\
      (n_evals ta + n_skipped ta <= n_evals tm)%nat.
Proof.
  induction frames as [|frames IH]; intros b d mx m tm H alpha beta;
    [discriminate|].
  cbn [MinMaxPlayer.rec] in H. cbn [AlphaBetaPlayer.rec].
  change (AlphaBetaPlayer.terminal_or_depth self b d)
    with (MinMaxPlayer.terminal_or_depth self b d).
  destruct (MinMaxPlayer.terminal_or_depth self b d).
  - exists m, tm. split; [exact H|].
    unfold MinMaxPlayer.score in H. rewrite evaluate_board_eq in H.
    injection H as _ <-. autorewrite with logs. lia.
  - destruct mx.
    + eapply ab_for_max_exists; [|exact H].
      intros b' m' tm' Hb'. split; [now apply mm_rec_evals in Hb'|].
      intros a' be'. eapply IH. eassumption.
    + eapply ab_for_min_exists; [|exact H].
      intros b' m' tm' Hb'. split; [now apply mm_rec_evals in Hb'|].
      intros a' be'. eapply IH. eassumption.
Qed.

(** *** The pruned loops bound the minimax value *)

Lemma ab_for_max_bounds (childm : Board -> M Z)
    (childa : Board -> Z -> Z -> M Z) b alpha0 beta :
  (forall b' alpha m tm r ta, alpha < beta ->
     childm b' = Some (m, tm) -> childa b' alpha beta = Some (r, ta) ->
     bounds alpha beta m r) ->
  forall cols value alpha best m tm r ta,
    alpha < beta -> best <= value -> (alpha0 < value -> value <= best) ->
    alpha0 <= alpha -> alpha <= Z.max alpha0 value ->
    MinMaxPlayer.for_max self childm b cols best = Some (m, tm) ->
    AlphaBetaPlayer.for_max self childa b cols value alpha beta = Some (r, ta)
        ->
    bounds alpha0 beta m r.
Proof.
  intros Hc. induction cols as [|c cs IH];
    intros value alpha best m tm r ta Hab J1 J2 J3 J4 Hm Ha.
  - injection Hm as <- _. injection Ha as <- _. split; lia.
  - destruct (is_valid b c) eqn:V.
    + apply mm_for_max_inv in Hm as (v & tv & tr & Hv & Hm & _); [|assumption].
      destruct (ab_for_max_child _ _ _ _ _ _ _ _ _ V Ha) as (r1 & ta1 & Hr1).
      rewrite (ab_for_max_step self childa b c cs value alpha beta r1 ta1 V Hr1)
        in Ha.
      destruct (Hc _ _ _ _ _ _ Hab Hv Hr1) as (K1 & K2).
      destruct (Z.geb_spec (Z.max alpha (Z.max value r1)) beta) as [G|G].
      * injection Ha as <- _. apply mm_for_max_ge in Hm. split; lia.
      * destruct (AlphaBetaPlayer.for_max self childa b cs _ _ _)
          as [[r' tr']|] eqn:E; [|discriminate].
        injection Ha as -> _.
        eapply (IH _ _ _ _ _ _ _ G); [| | | |exact Hm|exact E]; lia.
    + rewrite mm_for_max_skip in Hm by assumption.
      rewrite ab_for_max_skip in Ha by assumption. eauto.
Qed.

Lemma ab_for_min_bounds (childm : Board -> M Z)
    (childa : Board -> Z -> Z -> M Z) b alpha beta0 :
  (forall b' beta m tm r ta, alpha < beta ->
     childm b' = Some (m, tm) -> childa b' alpha beta = Some (r, ta) ->
     bounds alpha beta m r) ->
  forall cols value beta best m tm r ta,
    alpha < beta -> value <= best -> (value < beta0 -> best <= value) ->
    beta <= beta0 -> Z.min beta0 value <= beta ->
    MinMaxPlayer.for_min self childm b cols best = Some (m, tm) ->
    AlphaBetaPlayer.for_min self childa b cols value alpha beta = Some (r, ta)
        ->
    bounds alpha beta0 m r.
Proof.
  intros Hc. induction cols as [|c cs IH];
    intros value beta best m tm r ta Hab J1 J2 J3 J4 Hm Ha.
  - injection Hm as <- _. injection Ha as <- _. split; lia.
  - destruct (is_valid b c) eqn:V.
    + apply mm_for_min_inv in Hm as (v & tv & tr & Hv & Hm & _); [|assumption].
      destruct (ab_for_min_child _ _ _ _ _ _ _ _ _ V Ha) as (r1 & ta1 & Hr1).
      rewrite (ab_for_min_step self childa b c cs value alpha beta r1 ta1 V Hr1)
        in Ha.
      destruct (Hc _ _ _ _ _ _ Hab Hv Hr1) as (K1 & K2).
      destruct (Z.geb_spec alpha (Z.min beta (Z.min value r1))) as [G|G].
      * injection Ha as <- _. apply mm_for_min_le in Hm. split; lia.
      * destruct (AlphaBetaPlayer.for_min self childa b cs _ _ _)
          as [[r' tr']|] eqn:E; [|discriminate].
        injection Ha as -> _.
        eapply (IH _ _ _ _ _ _ _ G); [| | | |exact Hm|exact E]; lia.
    + rewrite mm_for_min_skip in Hm by assumption.
      rewrite ab_for_min_skip in Ha by assumption. eauto.
Qed.

(** For a window that is not empty, the value of alpha-beta bounds the
    minimax value of the same node. *)
Lemma ab_rec_bounds :
  forall frames b d mx alpha beta m tm r ta,
    alpha < beta ->
    MinMaxPlayer.rec self frames b d mx = Some (m, tm) ->
    AlphaBetaPlayer.rec self frames b d alpha beta mx = Some (r, ta) ->
    bounds alpha beta m r.
Proof.
  induction frames as [|frames IH];
    intros b d mx alpha beta m tm r ta Hab Hm Ha; [discriminate|].
  cbn [MinMaxPlayer.rec] in Hm. cbn [AlphaBetaPlayer.rec] in Ha.
  change (AlphaBetaPlayer.terminal_or_depth self b d)
    with (MinMaxPlayer.terminal_or_depth self b d) in Ha.
  destruct (MinMaxPlayer.terminal_or_depth self b d).
  - change (AlphaBetaPlayer.score self b) with (MinMaxPlayer.score self b) in
      Ha.
    rewrite Hm in Ha. injection Ha as <- _. split; lia.
  - destruct mx.
    + eapply (ab_for_max_bounds _ _ b alpha beta);
        [| | | | | |exact Hm|exact Ha]; try lia.
      intros b' a' m' tm' r' ta' Hlt H1 H2. cbv beta in H1, H2.
      eapply IH; eassumption.
    + eapply (ab_for_min_bounds _ _ b alpha beta);
        [| | | | | |exact Hm|exact Ha]; try lia.
      intros b' a' m' tm' r' ta' Hlt H1 H2. cbv beta in H1, H2.
      eapply IH; eassumption.
Qed.

Lemma ab_for_min_le (child : Board -> Z -> Z -> M Z) b alpha cols :
  forall value beta r t,
    AlphaBetaPlayer.for_min self child b cols value alpha beta = Some (r, t) ->
    r <= value.
Proof.
  induction cols as [|c cs IH]; intros value beta r t H.
  - injection H as <- _. lia.
  - destruct (is_valid b c) eqn:V.
    + destruct (ab_for_min_child _ _ _ _ _ _ _ _ _ V H) as (r1 & ta1 & Hr1).
      rewrite (ab_for_min_step self child b c cs value alpha beta r1 ta1 V Hr1)
        in H.
      destruct (alpha >=? Z.min beta (Z.min value r1)).
      * injection H as <- _. lia.
      * destruct (AlphaBetaPlayer.for_min self child b cs _ _ _)
          as [[r' tr']|] eqn:E; [|discriminate].
        injection H as -> _. apply IH in E. lia.
    + rewrite ab_for_min_skip in H by assumption. eauto.
Qed.

(** A node of the minimizing side is either a leaf, where both searches
    return the same score, or worth at most [10**9] in both. *)
Lemma ab_rec_min_le :
  forall frames b d alpha beta m tm r ta,
    MinMaxPlayer.rec self frames b d false = Some (m, tm) ->
    AlphaBetaPlayer.rec self frames b d alpha beta false = Some (r, ta) ->
    r = m \/ (m <= 10 ^ 9 /\ r <= 10 ^ 9).
Proof.
  intros [|frames] b d alpha beta m tm r ta Hm Ha; [discriminate|].
  cbn [MinMaxPlayer.rec] in Hm. cbn [AlphaBetaPlayer.rec] in Ha.
  change (AlphaBetaPlayer.terminal_or_depth self b d)
    with (MinMaxPlayer.terminal_or_depth self b d) in Ha.
  destruct (MinMaxPlayer.terminal_or_depth self b d).
  - change (AlphaBetaPlayer.score self b) with (MinMaxPlayer.score self b) in
      Ha.
    rewrite Hm in Ha. injection Ha as <- _. now left.
  - right. split.
    + now apply mm_for_min_le in Hm.
    + now apply ab_for_min_le in Ha.
Qed.

(** *** The root loops *)

(** From equal incumbent values, with the running [alpha] of alpha-beta
    equal to that value, the two root loops end with the same value and
    replace their incumbent column at the same columns. *)
Lemma for_root_agree (childm : Board -> M Z)
    (childa : Board -> Z -> Z -> M Z) board :
  (forall b' m tm, childm b' = Some (m, tm) ->
     forall alpha beta, exists r ta,
       childa b' alpha beta = Some (r, ta) /\
       (n_evals ta + n_skipped ta <= n_evals tm)%nat /\
       (alpha < beta -> bounds alpha beta m r) /\
       (r = m \/ (m <= 10 ^ 9 /\ r <= 10 ^ 9))) ->
  forall cols bv bcm bca vm cm tm,
    MinMaxPlayer.for_root self childm board cols bv bcm = Some ((vm, cm), tm) ->
    exists ca ta,
      AlphaBetaPlayer.for_root self childa board cols bv bca bv (10 ^ 9)
      = Some ((vm, ca), ta) /\
      ((cm = bcm /\ ca = bca) \/ (exists c, cm = Some c /\ ca = Z.of_nat c)) /\
      (n_evals ta + n_skipped ta <= n_evals tm)%nat.
Proof.
  intros Hc. induction cols as [|c cs IH]; intros bv bcm bca vm cm tm H.
  - injection H as <- <- <-. exists bca, []. repeat split; auto.
  - destruct (is_valid board c) eqn:V.
    + apply mm_for_root_inv in H as (m & tm1 & tr & Hm & H & ->);
        [|assumption].
      destruct (Hc _ _ _ Hm bv (10 ^ 9)) as (r & ta1 & Hr & Hn & K & L).
      rewrite (ab_for_root_step self childa board c cs bv bca bv (10 ^ 9)
                 r ta1 V Hr).
      assert (E1 : (r >? bv) = (m >? bv)).
      { unfold bounds in K.
        destruct (Z.gtb_spec r bv), (Z.gtb_spec m bv); try reflexivity; lia. }
      assert (E2 : m > bv -> r = m).
      { unfold bounds in K. destruct (Z.gtb_spec r bv); lia. }
      rewrite E1.
      assert (E3 : (if m >? bv then r else bv) = (if m >? bv then m else bv)).
      { destruct (Z.gtb_spec m bv); [apply E2|]; lia. }
      rewrite E3.
      replace (Z.max bv (if m >? bv then m else bv))
        with (if m >? bv then m else bv)
        by (destruct (Z.gtb_spec m bv); lia).
      destruct (IH _ _ (if m >? bv then Z.of_nat c else bca) _ _ _ H)
        as (ca & ta & -> & D & Hn').
      exists ca, (Move board c (player_id self) :: ta1 ++ Root c r :: ta).
      split; [reflexivity|]. split.
      * destruct (m >? bv); [right|exact D].
        destruct D as [[-> ->]|D]; [eauto|exact D].
      * change (Root c r :: ta) with ([Root c r] ++ ta).
        change (Root c m :: tr) with ([Root c m] ++ tr).
        autorewrite with logs. lia.
    + rewrite mm_for_root_skip in H by assumption.
      rewrite ab_for_root_skip by assumption. eauto.
Qed.

Lemma mm_make_move_of_search frames board v bc t :
  MinMaxPlayer.search self frames board = Some ((v, bc), t) ->
  MinMaxPlayer.make_move_within self frames board
  = Some (match bc with Some c => Z.of_nat c | None => -1 end, t).
Proof.
  intros H. unfold MinMaxPlayer.make_move_within.
  rewrite (bind_eq _ _ _ _ H). unfold ret. cbn [snd].
  now rewrite app_nil_r.
Qed.

Lemma ab_make_move_of_search frames board v bc t :
  AlphaBetaPlayer.search self frames board = Some ((v, bc), t) ->
  AlphaBetaPlayer.make_move_within self frames board = Some (bc, t).
Proof.
  intros H. unfold AlphaBetaPlayer.make_move_within.
  rewrite (bind_eq _ _ _ _ H). unfold ret. cbn [snd].
  now rewrite app_nil_r.
Qed.

(** The root loop of minimax returns when the player id is not 0. *)
Lemma mm_search_total board :
  player_id self <> 0 ->
  exists v bc t,
    MinMaxPlayer.search self (empty_cells board) board = Some ((v, bc), t).
Proof.
  intros Hp. unfold MinMaxPlayer.search.
  destruct (mm_for_root_total self
              (fun b' => MinMaxPlayer.rec self (empty_cells board) b'
                           (depth self - 1) false)
              board (range (width board))) with (bv := - 10 ^ 9)
              (bc := @None nat) as ([v bc] & t & H).
  - intros c _ V. apply mm_rec_total; [assumption|].
    pose proof (get_new_board_empty_cells board c _ V Hp). lia.
  - now exists v, bc, t.
Qed.

(** The two searches side by side: same root value, and the column of
    alpha-beta is that of minimax, or 0 where minimax has none. *)
Lemma search_agree frames board v bc tm :
  MinMaxPlayer.search self frames board = Some ((v, bc), tm) ->
  exists ta,
    AlphaBetaPlayer.search self frames board
    = Some ((v, match bc with Some c => Z.of_nat c | None => 0 end), ta) /\
    (n_evals ta + n_skipped ta <= n_evals tm)%nat.
Proof.
  intros H. unfold MinMaxPlayer.search in H. unfold AlphaBetaPlayer.search.
  eapply for_root_agree with (bca := 0) in H.
  - destruct H as (ca & ta & -> & D & Hn). exists ta. split; [|exact Hn].
    destruct D as [[-> ->]|(c & -> & ->)]; reflexivity.
  - intros b' m tm' Hm alpha beta. cbv beta in Hm.
    destruct (ab_rec_exists _ _ _ _ _ _ Hm alpha beta) as (r & ta & Hr & Hn).
    exists r, ta. split; [exact Hr|]. split; [exact Hn|]. split.
    + intros Hlt. eapply ab_rec_bounds; eassumption.
    + eapply ab_rec_min_le; eassumption.
Qed.

End Pruning.

(** ** What the logs of the evaluators contain *)

Section Logs.

Variable self : Player.

Lemma inner_ok_event_ok (t : log) :
  Forall (inner_ok self) t -> Forall (event_ok self) t.
Proof.
  apply Forall_impl. intros [pid b|b c pid|b c s|c v]; simpl; auto.
Qed.

Lemma inner_ok_no_root (t : log) :
  Forall (inner_ok self) t -> root_values t = [].
Proof.
  induction 1 as [|e t He _ IH]; [reflexivity|].
  destruct e; simpl in *; auto. contradiction.
Qed.

Lemma event_ok_moves (t : log) :
  Forall (event_ok self) t ->
  forall b c, In (b, c) (moves t) -> is_valid b c = true.
Proof.
  induction 1 as [|e t He _ IH]; intros b c Hin; [contradiction|].
  destruct e; simpl in *; auto.
  destruct Hin as [E|Hin]; [injection E as <- <-; exact He|auto].
Qed.

Lemma event_ok_eval_pids (t : log) :
  Forall (event_ok self) t ->
  forall pid, In pid (eval_pids t) -> pid = player_id self.
Proof.
  induction 1 as [|e t He _ IH]; intros pid Hin; [contradiction|].
  destruct e; simpl in *; auto.
  destruct Hin as [<-|Hin]; [exact He|auto].
Qed.

Lemma mm_for_max_inner (child : Board -> M Z) b cols :
  (forall b' v t, child b' = Some (v, t) -> Forall (inner_ok self) t) ->
  forall best r t,
    MinMaxPlayer.for_max self child b cols best = Some (r, t) ->
    Forall (inner_ok self) t.
Proof.
  intros Hc. induction cols as [|c cs IH]; intros best r t H.
  - injection H as _ <-. constructor.
  - destruct (is_valid b c) eqn:V.
    + apply mm_for_max_inv in H as (v & tv & tr & Hv & H & ->); [|assumption].
      constructor; [exact V|]. apply Forall_app. split; eauto.
    + rewrite mm_for_max_skip in H by assumption. eauto.
Qed.

Lemma mm_for_min_inner (child : Board -> M Z) b cols :
  (forall b' v t, child b' = Some (v, t) -> Forall (inner_ok self) t) ->
  forall best r t,
    MinMaxPlayer.for_min self child b cols best = Some (r, t) ->
    Forall (inner_ok self) t.
Proof.
  intros Hc. induction cols as [|c cs IH]; intros best r t H.
  - injection H as _ <-. constructor.
  - destruct (is_valid b c) eqn:V.
    + apply mm_for_min_inv in H as (v & tv & tr & Hv & H & ->); [|assumption].
      constructor; [exact V|]. apply Forall_app. split; eauto.
    + rewrite mm_for_min_skip in H by assumption. eauto.
Qed.

(** A run of the minimax evaluator applies moves to legal columns only,
    asks the heuristic for the score of the player who is deciding, and
    logs no root value. *)
Lemma mm_rec_inner :
  forall frames b d mx v t,
    MinMaxPlayer.rec self frames b d mx = Some (v, t) ->
    Forall (inner_ok self) t.
Proof.
  induction frames as [|frames IH]; intros b d mx v t H; [discriminate|].
  cbn [MinMaxPlayer.rec] in H.
  destruct (MinMaxPlayer.terminal_or_depth self b d).
  - unfold MinMaxPlayer.score in H. rewrite evaluate_board_eq in H.
    injection H as _ <-. repeat constructor.
  - destruct mx.
    + eapply mm_for_max_inner; [|exact H]. intros b' v' t'. apply IH.
    + eapply mm_for_min_inner; [|exact H]. intros b' v' t'. apply IH.
Qed.

Lemma ab_for_max_inner (child : Board -> Z -> Z -> M Z) b beta cols :
  (forall b' a' be' v t, child b' a' be' = Some (v, t) ->
     Forall (inner_ok self) t) ->
  forall value alpha r t,
    AlphaBetaPlayer.for_max self child b cols value alpha beta = Some (r, t) ->
    Forall (inner_ok self) t.
Proof.
  intros Hc. induction cols as [|c cs IH]; intros value alpha r t H.
  - injection H as _ <-. constructor.
  - destruct (is_valid b c) eqn:V.
    + destruct (ab_for_max_child _ _ _ _ _ _ _ _ _ _ V H) as (v & tv & Hv).
      rewrite (ab_for_max_step self child b c cs value alpha beta v tv V Hv) in
          H.
      destruct (Z.max alpha (Z.max value v) >=? beta).
      * injection H as _ <-. constructor; [exact V|].
        apply Forall_app. split; [eauto|]. repeat constructor.
      * destruct (AlphaBetaPlayer.for_max self child b cs _ _ _)
          as [[r' tr]|] eqn:E; [|discriminate].
        injection H as _ <-. constructor; [exact V|].
        apply Forall_app. split; eauto.
    + rewrite ab_for_max_skip in H by assumption. eauto.
Qed.

Lemma ab_for_min_inner (child : Board -> Z -> Z -> M Z) b alpha cols :
  (forall b' a' be' v t, child b' a' be' = Some (v, t) ->
     Forall (inner_ok self) t) ->
  forall value beta r t,
    AlphaBetaPlayer.for_min self child b cols value alpha beta = Some (r, t) ->
    Forall (inner_ok self) t.
Proof.
  intros Hc. induction cols as [|c cs IH]; intros value beta r t H.
  - injection H as _ <-. constructor.
  - destruct (is_valid b c) eqn:V.
    + destruct (ab_for_min_child _ _ _ _ _ _ _ _ _ _ V H) as (v & tv & Hv).
      rewrite (ab_for_min_step self child b c cs value alpha beta v tv V Hv) in
          H.
      destruct (alpha >=? Z.min beta (Z.min value v)).
      * injection H as _ <-. constructor; [exact V|].
        apply Forall_app. split; [eauto|]. repeat constructor.
      * destruct (AlphaBetaPlayer.for_min self child b cs _ _ _)
          as [[r' tr]|] eqn:E; [|discriminate].
        injection H as _ <-. constructor; [exact V|].
        apply Forall_app. split; eauto.
    + rewrite ab_for_min_skip in H by assumption. eauto.
Qed.

(** The same for the alpha-beta evaluator. *)
Lemma ab_rec_inner :
  forall frames b d alpha beta mx v t,
    AlphaBetaPlayer.rec self frames b d alpha beta mx = Some (v, t) ->
    Forall (inner_ok self) t.
Proof.
  induction frames as [|frames IH]; intros b d alpha beta mx v t H;
    [discriminate|].
  cbn [AlphaBetaPlayer.rec] in H.
  destruct (AlphaBetaPlayer.terminal_or_depth self b d).
  - unfold AlphaBetaPlayer.score in H. rewrite evaluate_board_eq in H.
    injection H as _ <-. repeat constructor.
  - destruct mx.
    + eapply ab_for_max_inner; [|exact H]. intros b' a' be' v' t'. apply IH.
    + eapply ab_for_min_inner; [|exact H]. intros b' a' be' v' t'. apply IH.
Qed.

End Logs.

(** ** What the root loops select *)

Section Roots.

Variable self : Player.

Lemma increasing_tail c cs : increasing (c :: cs) -> increasing cs.
Proof.
  intros H l1 c' l2 E. apply (H (c :: l1) c' l2). now rewrite E.
Qed.

Lemma increasing_head c cs :
  increasing (c :: cs) -> forall c', In c' cs -> (c < c')%nat.
Proof. intros H. apply (H [] c cs). reflexivity. Qed.

Lemma increasing_range (n : nat) : increasing (range n).
Proof.
  unfold range. intros l1 c l2 E c' Hin.
  assert (Hs : forall (m s : nat) l1,
             seq s m = l1 ++ c :: l2 -> (c < c')%nat).
  { clear E l1. induction m as [|m IH]; intros s l1 E.
    - now destruct l1.
    - destruct l1 as [|x l1]; simpl in E; injection E as E1 E2.
      + subst. apply in_seq in Hin. lia.
      + eauto. }
  eauto.
Qed.

Lemma root_values_in_cols (t : log) (b : Board) (cols : list nat) :
  map fst (root_values t) = filter (is_valid b) cols ->
  forall c x, In (c, x) (root_values t) -> In c cols /\ is_valid b c = true.
Proof.
  intros E c x Hin. apply (in_map fst) in Hin. rewrite E in Hin.
  now apply filter_In in Hin.
Qed.

Lemma mm_for_root_spec (child : Board -> M Z) board cols :
  (forall b' v t, child b' = Some (v, t) -> Forall (inner_ok self) t) ->
  increasing cols ->
  forall bv bc v bc' t,
    MinMaxPlayer.for_root self child board cols bv bc = Some ((v, bc'), t) ->
    Forall (event_ok self) t /\
    map fst (root_values t) = filter (is_valid board) cols /\
    bv <= v /\
    (forall c x, In (c, x) (root_values t) -> x <= v) /\
    ((bc' = bc /\ v = bv) \/
     (exists c, bc' = Some c /\ In (c, v) (root_values t) /\ bv < v /\
        forall c' x, In (c', x) (root_values t) -> (c' < c)%nat -> x < v)).
Proof.
  intros Hc. induction cols as [|c cs IH]; intros Hs bv bc v bc' t H.
  - injection H as <- <- <-. repeat split; auto; try lia.
    intros c x [].
  - destruct (is_valid board c) eqn:V.
    + apply mm_for_root_inv in H as (x0 & tv & tr & Hx & H & ->); [|assumption].
      pose proof (Hc _ _ _ Hx) as Hin.
      destruct (IH (increasing_tail _ _ Hs) _ _ _ _ _ H)
        as (F & Em & Hle & Hall & Hsel).
      assert (Er : root_values (Move board c (player_id self)
                                  :: tv ++ Root c x0 :: tr)
                   = (c, x0) :: root_values tr).
      { cbn [root_values]. rewrite root_values_app.
        rewrite (inner_ok_no_root self tv Hin). reflexivity. }
      rewrite Er. clear Er.
      assert (Hgt : forall c' x, In (c', x) (root_values tr) -> (c < c')%nat).
      { intros c' x Hx'. apply (increasing_head _ _ Hs).
        now apply (root_values_in_cols _ _ _ Em) in Hx'. }
      split; [|split; [|split; [|split]]].
      * constructor; [exact V|]. apply Forall_app. split.
        -- now apply inner_ok_event_ok.
        -- now constructor.
      * cbn [map fst filter]. rewrite V. now f_equal.
      * destruct (Z.gtb_spec x0 bv); lia.
      * intros c' x [E|Hx']; [injection E as <- <-|now apply Hall in Hx'].
        destruct (Z.gtb_spec x0 bv); lia.
      * destruct Hsel as [[-> ->]|(c2 & -> & Hin2 & Hlt & Hfirst)].
        -- destruct (Z.gtb_spec x0 bv) as [G|G]; [right|now left].
           exists c. repeat split; auto; [now left|].
           intros c' x [E|Hx'] Hcc.
           ++ injection E as <- <-. lia.
           ++ apply Hgt in Hx'. lia.
        -- right. exists c2. repeat split; auto.
           ++ now right.
           ++ destruct (Z.gtb_spec x0 bv); lia.
           ++ intros c' x [E|Hx'] Hcc; [|eauto].
              injection E as <- <-. destruct (Z.gtb_spec x0 bv); lia.
    + rewrite mm_for_root_skip in H by assumption.
      cbn [filter]. rewrite V. eauto using increasing_tail.
Qed.

Lemma ab_for_root_spec (child : Board -> Z -> Z -> M Z) board cols beta :
  (forall b' a' be' v t, child b' a' be' = Some (v, t) ->
     Forall (inner_ok self) t) ->
  increasing cols ->
  forall bv bc alpha v bc' t,
    AlphaBetaPlayer.for_root self child board cols bv bc alpha beta
    = Some ((v, bc'), t) ->
    Forall (event_ok self) t /\
    map fst (root_values t) = filter (is_valid board) cols /\
    bv <= v /\
    (forall c x, In (c, x) (root_values t) -> x <= v) /\
    ((bc' = bc /\ v = bv) \/
     (exists c, bc' = Z.of_nat c /\ In (c, v) (root_values t) /\ bv < v /\
        forall c' x, In (c', x) (root_values t) -> (c' < c)%nat -> x < v)).
Proof.
  intros Hc. induction cols as [|c cs IH]; intros Hs bv bc alpha v bc' t H.
  - injection H as <- <- <-. repeat split; auto; try lia.
    intros c x [].
  - destruct (is_valid board c) eqn:V.
    + destruct (ab_for_root_child _ _ _ _ _ _ _ _ _ _ _ V H) as (x0 & tv & Hx).
      rewrite (ab_for_root_step self child board c cs bv bc alpha beta x0 tv V
          Hx)
        in H.
      destruct (AlphaBetaPlayer.for_root self child board cs _ _ _ _)
        as [[r' tr]|] eqn:E; [|discriminate].
      injection H as -> <-.
      pose proof (Hc _ _ _ _ _ Hx) as Hin.
      destruct (IH (increasing_tail _ _ Hs) _ _ _ _ _ _ E)
        as (F & Em & Hle & Hall & Hsel).
      assert (Er : root_values (Move board c (player_id self)
                                  :: tv ++ Root c x0 :: tr)
                   = (c, x0) :: root_values tr).
      { cbn [root_values]. rewrite root_values_app.
        rewrite (inner_ok_no_root self tv Hin). reflexivity. }
      rewrite Er. clear Er.
      assert (Hgt : forall c' x, In (c', x) (root_values tr) -> (c < c')%nat).
      { intros c' x Hx'. apply (increasing_head _ _ Hs).
        now apply (root_values_in_cols _ _ _ Em) in Hx'. }
      split; [|split; [|split; [|split]]].
      * constructor; [exact V|]. apply Forall_app. split.
        -- now apply inner_ok_event_ok.
        -- now constructor.
      * cbn [map fst filter]. rewrite V. now f_equal.
      * destruct (Z.gtb_spec x0 bv); lia.
      * intros c' x [E'|Hx']; [injection E' as <- <-|now apply Hall in Hx'].
        destruct (Z.gtb_spec x0 bv); lia.
      * destruct Hsel as [[-> ->]|(c2 & -> & Hin2 & Hlt & Hfirst)].
        -- destruct (Z.gtb_spec x0 bv) as [G|G]; [right|now left].
           exists c. repeat split; auto; [now left|].
           intros c' x [E'|Hx'] Hcc.
           ++ injection E' as <- <-. lia.
           ++ apply Hgt in Hx'. lia.
        -- right. exists c2. repeat split; auto.
           ++ now right.
           ++ destruct (Z.gtb_spec x0 bv); lia.
           ++ intros c' x [E'|Hx'] Hcc; [|eauto].
              injection E' as <- <-. destruct (Z.gtb_spec x0 bv); lia.
    + rewrite ab_for_root_skip in H by assumption.
      cbn [filter]. rewrite V. eauto using increasing_tail.
Qed.

End Roots.

(** ** Values above the initial incumbent *)

Section Lower.

Variable self : Player.
Variable low : Z.
Hypothesis evaluate_above :
  forall b, low < evaluate (heuristic self) (player_id self) b.

Lemma mm_for_max_lower (child : Board -> M Z) b cols :
  (forall b' v t, child b' = Some (v, t) -> low < v) ->
  forall best r t,
    MinMaxPlayer.for_max self child b cols best = Some (r, t) ->
    low < best \/ existsb (is_valid b) cols = true -> low < r.
Proof.
  intros Hc. induction cols as [|c cs IH]; intros best r t H Hor.
  - injection H as <- _. destruct Hor; [assumption|discriminate].
  - destruct (is_valid b c) eqn:V.
    + apply mm_for_max_inv in H as (v & tv & tr & Hv & H & _); [|assumption].
      apply Hc in Hv. apply (IH _ _ _ H). left. lia.
    + rewrite mm_for_max_skip in H by assumption.
      apply (IH _ _ _ H). cbn [existsb] in Hor. now rewrite V in Hor.
Qed.

Lemma mm_for_min_lower (child : Board -> M Z) b cols :
  (forall b' v t, child b' = Some (v, t) -> low < v) ->
  forall best r t,
    MinMaxPlayer.for_min self child b cols best = Some (r, t) ->
    low < best -> low < r.
Proof.
  intros Hc. induction cols as [|c cs IH]; intros best r t H Hb.
  - now injection H as <- _.
  - destruct (is_valid b c) eqn:V.
    + apply mm_for_min_inv in H as (v & tv & tr & Hv & H & _); [|assumption].
      apply Hc in Hv. apply (IH _ _ _ H). lia.
    + rewrite mm_for_min_skip in H by assumption. eauto.
Qed.

(** When every score of the heuristic is above [low], and [low] is below
    [10**9], so is every value of the evaluator. *)
Lemma mm_rec_lower :
  low < 10 ^ 9 ->
  forall frames b d mx v t,
    MinMaxPlayer.rec self frames b d mx = Some (v, t) -> low < v.
Proof.
  intros Hlow. induction frames as [|frames IH]; intros b d mx v t H;
    [discriminate|].
  cbn [MinMaxPlayer.rec] in H.
  destruct (MinMaxPlayer.terminal_or_depth self b d) eqn:T.
  - unfold MinMaxPlayer.score in H. rewrite evaluate_board_eq in H.
    injection H as <- _. apply evaluate_above.
  - destruct mx.
    + eapply mm_for_max_lower; [|exact H|].
      * intros b' v' t'. apply IH.
      * right. eapply mm_not_terminal. exact T.
    + eapply mm_for_min_lower; [|exact H|exact Hlow].
      intros b' v' t'. apply IH.
Qed.

End Lower.

(** ** The decisions *)

Section Decisions.

Variable self : Player.

Lemma valid_player_nonzero : valid_player self -> player_id self <> 0.
Proof. intros [H|H]; rewrite H; discriminate. Qed.

Lemma mm_for_root_values (P : Z -> Prop) (child : Board -> M Z) board cols :
  (forall b' v t, child b' = Some (v, t) -> Forall (inner_ok self) t /\ P v) ->
  forall bv bc r t,
    MinMaxPlayer.for_root self child board cols bv bc = Some (r, t) ->
    forall c x, In (c, x) (root_values t) -> P x.
Proof.
  intros Hc. induction cols as [|c cs IH]; intros bv bc r t H c' x Hin.
  - injection H as _ <-. contradiction.
  - destruct (is_valid board c) eqn:V.
    + apply mm_for_root_inv in H as (x0 & tv & tr & Hx & H & ->); [|assumption].
      destruct (Hc _ _ _ Hx) as (Hok & HP).
      cbn [root_values] in Hin. rewrite root_values_app in Hin.
      rewrite (inner_ok_no_root self tv Hok) in Hin.
      destruct Hin as [E|Hin]; [injection E as _ <-; exact HP|eauto].
    + rewrite mm_for_root_skip in H by assumption. eauto.
Qed.

Lemma mm_search_spec frames board v bc t :
  MinMaxPlayer.search self frames board = Some ((v, bc), t) ->
  Forall (event_ok self) t /\
  map fst (root_values t) = filter (is_valid board) (range (width board)) /\
  (forall c x, In (c, x) (root_values t) -> x <= v) /\
  ((bc = None /\ v = - 10 ^ 9) \/
   (exists c, bc = Some c /\ In (c, v) (root_values t) /\
      forall c' x, In (c', x) (root_values t) -> (c' < c)%nat -> x < v)).
Proof.
  intros H. unfold MinMaxPlayer.search in H.
  apply mm_for_root_spec in H as (F & Em & _ & Hall & Hsel).
  - repeat split; try assumption.
    destruct Hsel as [?|(c & ? & ? & _ & ?)]; [now left|right; eauto].
  - intros b' v' t'. apply mm_rec_inner.
  - apply increasing_range.
Qed.

Lemma ab_search_spec frames board v bc t :
  AlphaBetaPlayer.search self frames board = Some ((v, bc), t) ->
  Forall (event_ok self) t /\
  map fst (root_values t) = filter (is_valid board) (range (width board)) /\
  (forall c x, In (c, x) (root_values t) -> x <= v) /\
  ((bc = 0 /\ v = - 10 ^ 9) \/
   (exists c, bc = Z.of_nat c /\ In (c, v) (root_values t) /\
      forall c' x, In (c', x) (root_values t) -> (c' < c)%nat -> x < v)).
Proof.
  intros H. unfold AlphaBetaPlayer.search in H.
  apply ab_for_root_spec in H as (F & Em & _ & Hall & Hsel).
  - repeat split; try assumption.
    destruct Hsel as [?|(c & ? & ? & _ & ?)]; [now left|right; eauto].
  - intros b' a' be' v' t'. apply ab_rec_inner.
  - apply increasing_range.
Qed.

(** Both root loops return when the player id is 1 or 2, with the results
    side by side. *)
Lemma both_search_total board :
  valid_player self ->
  exists v bc tm ta,
    MinMaxPlayer.search self (empty_cells board) board = Some ((v, bc), tm) /\
    AlphaBetaPlayer.search self (empty_cells board) board
    = Some ((v, match bc with Some c => Z.of_nat c | None => 0 end), ta) /\
    (n_evals ta + n_skipped ta <= n_evals tm)%nat.
Proof.
  intros Hp. apply valid_player_nonzero in Hp.
  destruct (mm_search_total self board Hp) as (v & bc & tm & Hm).
  destruct (search_agree self _ _ _ _ _ Hm) as (ta & Ha & Hn).
  now exists v, bc, tm, ta.
Qed.

(** In a whole run of either [make_move], every evaluation the heuristic
    is asked for is for the player who is deciding. *)
Lemma mm_evaluations_for_self frames board v bc t :
  MinMaxPlayer.search self frames board = Some ((v, bc), t) ->
  forall pid, In pid (eval_pids t) -> pid = player_id self.
Proof.
  intros H. apply mm_search_spec in H as (F & _).
  now apply event_ok_eval_pids.
Qed.

Lemma ab_evaluations_for_self frames board v bc t :
  AlphaBetaPlayer.search self frames board = Some ((v, bc), t) ->
  forall pid, In pid (eval_pids t) -> pid = player_id self.
Proof.
  intros H. apply ab_search_spec in H as (F & _).
  now apply event_ok_eval_pids.
Qed.

End Decisions.

Section NoLegalColumn.

Variable self : Player.

Lemma mm_for_root_none (child : Board -> M Z) board cols bv bc :
  (forall c, In c cols -> is_valid board c = false) ->
  MinMaxPlayer.for_root self child board cols bv bc = Some ((bv, bc), []).
Proof.
  induction cols as [|c cs IH]; intros H; [reflexivity|].
  rewrite mm_for_root_skip by (apply H; now left).
  apply IH. intros c' Hin. apply H. now right.
Qed.

Lemma ab_for_root_none (child : Board -> Z -> Z -> M Z) board cols bv bc alpha
    beta :
  (forall c, In c cols -> is_valid board c = false) ->
  AlphaBetaPlayer.for_root self child board cols bv bc alpha beta
  = Some ((bv, bc), []).
Proof.
  induction cols as [|c cs IH]; intros H; [reflexivity|].
  rewrite ab_for_root_skip by (apply H; now left).
  apply IH. intros c' Hin. apply H. now right.
Qed.

(** With a depth of at least 1 the two searches return within [depth]
    nested frames of [rec], on every board. *)
Lemma searches_within_depth board :
  1 <= depth self ->
  exists r tm ta,
    MinMaxPlayer.search self (Z.to_nat (depth self)) board = Some (r, tm) /\
    AlphaBetaPlayer.search self (Z.to_nat (depth self)) board
    = Some ((fst r, match snd r with Some c => Z.of_nat c | None => 0 end), ta).
Proof.
  intros Hd.
  destruct (mm_for_root_total self
              (fun b' => MinMaxPlayer.rec self (Z.to_nat (depth self)) b'
                           (depth self - 1) false)
              board (range (width board))) with (bv := - 10 ^ 9)
              (bc := @None nat) as ([v bc] & tm & Hm).
  - intros c _ V. apply mm_rec_total_depth. lia.
  - destruct (search_agree self _ _ _ _ _ Hm) as (ta & Ha & _).
    now exists (v, bc), tm, ta.
Qed.

End NoLegalColumn.

(** ** More frames change nothing *)

Section Frames.

Variable self : Player.

Lemma mm_for_max_mono (child1 child2 : Board -> M Z) b cols :
  (forall b' v t, child1 b' = Some (v, t) -> child2 b' = Some (v, t)) ->
  forall best r t,
    MinMaxPlayer.for_max self child1 b cols best = Some (r, t) ->
    MinMaxPlayer.for_max self child2 b cols best = Some (r, t).
Proof.
  intros Hc. induction cols as [|c cs IH]; intros best r t H; [exact H|].
  destruct (is_valid b c) eqn:V.
  - apply mm_for_max_inv in H as (v & tv & tr & Hv & H & ->); [|assumption].
    rewrite (mm_for_max_step self child2 b c cs best v tv V (Hc _ _ _ Hv)).
    now rewrite (IH _ _ _ H).
  - rewrite mm_for_max_skip in * by assumption. eauto.
Qed.

Lemma mm_for_min_mono (child1 child2 : Board -> M Z) b cols :
  (forall b' v t, child1 b' = Some (v, t) -> child2 b' = Some (v, t)) ->
  forall best r t,
    MinMaxPlayer.for_min self child1 b cols best = Some (r, t) ->
    MinMaxPlayer.for_min self child2 b cols best = Some (r, t).
Proof.
  intros Hc. induction cols as [|c cs IH]; intros best r t H; [exact H|].
  destruct (is_valid b c) eqn:V.
  - apply mm_for_min_inv in H as (v & tv & tr & Hv & H & ->); [|assumption].
    rewrite (mm_for_min_step self child2 b c cs best v tv V (Hc _ _ _ Hv)).
    now rewrite (IH _ _ _ H).
  - rewrite mm_for_min_skip in * by assumption. eauto.
Qed.

Lemma mm_for_root_mono (child1 child2 : Board -> M Z) b cols :
  (forall b' v t, child1 b' = Some (v, t) -> child2 b' = Some (v, t)) ->
  forall bv bc r t,
    MinMaxPlayer.for_root self child1 b cols bv bc = Some (r, t) ->
    MinMaxPlayer.for_root self child2 b cols bv bc = Some (r, t).
Proof.
  intros Hc. induction cols as [|c cs IH]; intros bv bc r t H; [exact H|].
  destruct (is_valid b c) eqn:V.
  - apply mm_for_root_inv in H as (v & tv & tr & Hv & H & ->); [|assumption].
    rewrite (mm_for_root_step self child2 b c cs bv bc v tv V (Hc _ _ _ Hv)).
    now rewrite (IH _ _ _ _ H).
  - rewrite mm_for_root_skip in * by assumption. eauto.
Qed.

Lemma mm_rec_mono :
  forall frames b d mx r,
    MinMaxPlayer.rec self frames b d mx = Some r ->
    MinMaxPlayer.rec self (S frames) b d mx = Some r.
Proof.
  induction frames as [|frames IH]; intros b d mx [v t] H; [discriminate|].
  cbn [MinMaxPlayer.rec] in H. cbn [MinMaxPlayer.rec].
  destruct (MinMaxPlayer.terminal_or_depth self b d); [exact H|].
  destruct mx.
  - eapply mm_for_max_mono; [|exact H]. intros b' v' t'. apply IH.
  - eapply mm_for_min_mono; [|exact H]. intros b' v' t'. apply IH.
Qed.

Lemma ab_for_max_mono (child1 child2 : Board -> Z -> Z -> M Z) b beta cols :
  (forall b' a' be' v t,
     child1 b' a' be' = Some (v, t) -> child2 b' a' be' = Some (v, t)) ->
  forall value alpha r t,
    AlphaBetaPlayer.for_max self child1 b cols value alpha beta = Some (r, t) ->
    AlphaBetaPlayer.for_max self child2 b cols value alpha beta = Some (r, t).
Proof.
  intros Hc. induction cols as [|c cs IH]; intros value alpha r t H; [exact H|].
  destruct (is_valid b c) eqn:V.
  - destruct (ab_for_max_child _ _ _ _ _ _ _ _ _ _ V H) as (v & tv & Hv).
    rewrite (ab_for_max_step self child1 b c cs value alpha beta v tv V Hv) in
        H.
    rewrite (ab_for_max_step self child2 b c cs value alpha beta v tv V
               (Hc _ _ _ _ _ Hv)).
    destruct (Z.max alpha (Z.max value v) >=? beta); [exact H|].
    destruct (AlphaBetaPlayer.for_max self child1 b cs _ _ _)
      as [[r' tr]|] eqn:E; [|discriminate].
    now rewrite (IH _ _ _ _ E).
  - rewrite ab_for_max_skip in * by assumption. eauto.
Qed.

Lemma ab_for_min_mono (child1 child2 : Board -> Z -> Z -> M Z) b alpha cols :
  (forall b' a' be' v t,
     child1 b' a' be' = Some (v, t) -> child2 b' a' be' = Some (v, t)) ->
  forall value beta r t,
    AlphaBetaPlayer.for_min self child1 b cols value alpha beta = Some (r, t) ->
    AlphaBetaPlayer.for_min self child2 b cols value alpha beta = Some (r, t).
Proof.
  intros Hc. induction cols as [|c cs IH]; intros value beta r t H; [exact H|].
  destruct (is_valid b c) eqn:V.
  - destruct (ab_for_min_child _ _ _ _ _ _ _ _ _ _ V H) as (v & tv & Hv).
    rewrite (ab_for_min_step self child1 b c cs value alpha beta v tv V Hv) in
        H.
    rewrite (ab_for_min_step self child2 b c cs value alpha beta v tv V
               (Hc _ _ _ _ _ Hv)).
    destruct (alpha >=? Z.min beta (Z.min value v)); [exact H|].
    destruct (AlphaBetaPlayer.for_min self child1 b cs _ _ _)
      as [[r' tr]|] eqn:E; [|discriminate].
    now rewrite (IH _ _ _ _ E).
  - rewrite ab_for_min_skip in * by assumption. eauto.
Qed.

Lemma ab_for_root_mono (child1 child2 : Board -> Z -> Z -> M Z) b beta cols :
  (forall b' a' be' v t,
     child1 b' a' be' = Some (v, t) -> child2 b' a' be' = Some (v, t)) ->
  forall bv bc alpha r t,
    AlphaBetaPlayer.for_root self child1 b cols bv bc alpha beta = Some (r, t)
        ->
    AlphaBetaPlayer.for_root self child2 b cols bv bc alpha beta = Some (r, t).
Proof.
  intros Hc. induction cols as [|c cs IH]; intros bv bc alpha r t H; [exact H|].
  destruct (is_valid b c) eqn:V.
  - destruct (ab_for_root_child _ _ _ _ _ _ _ _ _ _ _ V H) as (v & tv & Hv).
    rewrite (ab_for_root_step self child1 b c cs bv bc alpha beta v tv V Hv) in
        H.
    rewrite (ab_for_root_step self child2 b c cs bv bc alpha beta v tv V
               (Hc _ _ _ _ _ Hv)).
    destruct (AlphaBetaPlayer.for_root self child1 b cs _ _ _ _)
      as [[r' tr]|] eqn:E; [|discriminate].
    now rewrite (IH _ _ _ _ _ E).
  - rewrite ab_for_root_skip in * by assumption. eauto.
Qed.

Lemma ab_rec_mono :
  forall frames b d alpha beta mx r,
    AlphaBetaPlayer.rec self frames b d alpha beta mx = Some r ->
    AlphaBetaPlayer.rec self (S frames) b d alpha beta mx = Some r.
Proof.
  induction frames as [|frames IH]; intros b d alpha beta mx [v t] H;
    [discriminate|].
  cbn [AlphaBetaPlayer.rec] in H. cbn [AlphaBetaPlayer.rec].
  destruct (AlphaBetaPlayer.terminal_or_depth self b d); [exact H|].
  destruct mx.
  - eapply ab_for_max_mono; [|exact H]. intros b' a' be' v' t'. apply IH.
  - eapply ab_for_min_mono; [|exact H]. intros b' a' be' v' t'. apply IH.
Qed.

(** A [make_move] that returns within some frames returns the same with
    more: the result of [make_move] does not depend on the frames it is
    given beyond their being enough. *)
Lemma mm_make_move_within_more (frames extra : nat) board r :
  MinMaxPlayer.make_move_within self frames board = Some r ->
  MinMaxPlayer.make_move_within self (extra + frames) board = Some r.
Proof.
  induction extra as [|extra IH]; intros H; [exact H|].
  specialize (IH H). clear H. cbn [Nat.add].
  unfold MinMaxPlayer.make_move_within in *. destruct r as [c t].
  apply bind_Some in IH as (x & t1 & t2 & H1 & H2 & ->).
  apply (bind_Some_intro _ _ x t1 c t2); [|exact H2].
  unfold MinMaxPlayer.search in *. destruct x as [v bc].
  eapply mm_for_root_mono; [|exact H1].
  intros b' v' t'. apply mm_rec_mono.
Qed.

Lemma ab_make_move_within_more (frames extra : nat) board r :
  AlphaBetaPlayer.make_move_within self frames board = Some r ->
  AlphaBetaPlayer.make_move_within self (extra + frames) board = Some r.
Proof.
  induction extra as [|extra IH]; intros H; [exact H|].
  specialize (IH H). clear H. cbn [Nat.add].
  unfold AlphaBetaPlayer.make_move_within in *. destruct r as [c t].
  apply bind_Some in IH as (x & t1 & t2 & H1 & H2 & ->).
  apply (bind_Some_intro _ _ x t1 c t2); [|exact H2].
  unfold AlphaBetaPlayer.search in *. destruct x as [v bc].
  eapply ab_for_root_mono; [|exact H1].
  intros b' a' be' v' t'. apply ab_rec_mono.
Qed.

End Frames.

(** * The claims *)

(** ** C1: the two searches decide alike *)

(** C1, as amended.  For every player with id 1 or 2 and every board, the
    two root loops end with the same root decision value, and
    [AlphaBetaPlayer.make_move] returns the column that
    [MinMaxPlayer.make_move] returns, except that where minimax has no
    column and returns its sentinel -1, alpha-beta returns its initial
    column 0. *)
Theorem searches_decide_alike (self : Player) (board : Board) :
  valid_player self ->
  exists v bc tm ta,
    MinMaxPlayer.search self (empty_cells board) board = Some ((v, bc), tm) /\
    AlphaBetaPlayer.search self (empty_cells board) board
    = Some ((v, match bc with Some c => Z.of_nat c | None => 0 end), ta) /\
    MinMaxPlayer.make_move self board
    = Some (match bc with Some c => Z.of_nat c | None => -1 end, tm) /\
    AlphaBetaPlayer.make_move self board
    = Some (match bc with Some c => Z.of_nat c | None => 0 end, ta).
Proof.
  intros Hp. destruct (both_search_total self board Hp)
    as (v & bc & tm & ta & Hm & Ha & _).
  exists v, bc, tm, ta. repeat split; try assumption.
  - eapply mm_make_move_of_search. exact Hm.
  - eapply ab_make_move_of_search. exact Ha.
Qed.

Lemma searches_decide_alike_witness :
  valid_player (player_one positional 2) /\
  exists v bc tm ta,
    MinMaxPlayer.search (player_one positional 2) (empty_cells empty_2x2)
      empty_2x2 = Some ((v, bc), tm) /\
    AlphaBetaPlayer.search (player_one positional 2) (empty_cells empty_2x2)
      empty_2x2
    = Some ((v, match bc with Some c => Z.of_nat c | None => 0 end), ta) /\
    MinMaxPlayer.make_move (player_one positional 2) empty_2x2
    = Some (match bc with Some c => Z.of_nat c | None => -1 end, tm) /\
    AlphaBetaPlayer.make_move (player_one positional 2) empty_2x2
    = Some (match bc with Some c => Z.of_nat c | None => 0 end, ta).
Proof.
  split; [left; reflexivity|].
  apply (searches_decide_alike (player_one positional 2) empty_2x2).
  left; reflexivity.
Defined.

(** C1 fails as stated: on a full board minimax returns -1 and alpha-beta
    returns 0. *)
Lemma searches_differ_on_full_board :
  MinMaxPlayer.make_move (player_one positional 2) full_2x2 = Some (-1, []) /\
  AlphaBetaPlayer.make_move (player_one positional 2) full_2x2 = Some (0, []) /\
  option_map fst (MinMaxPlayer.make_move (player_one positional 2) full_2x2)
  <> option_map fst (AlphaBetaPlayer.make_move (player_one positional 2)
      full_2x2).
Proof. repeat split. discriminate. Qed.

(** ** C2: leaf evaluations *)

(** C2, as amended.  For every player with id 1 or 2 and every board,
    alpha-beta evaluates no more leaves than minimax, whatever the counter
    was before, and strictly fewer whenever one of its cutoffs left a
    legal column of its node unexamined. *)
Theorem pruning_never_costs_more (self : Player) (board : Board) :
  valid_player self ->
  exists cm tm ca ta,
    MinMaxPlayer.make_move self board = Some (cm, tm) /\
    AlphaBetaPlayer.make_move self board = Some (ca, ta) /\
    forall before : nat,
      (eval_count before ta <= eval_count before tm)%nat /\
      (n_skipped ta <> 0%nat ->
       (eval_count before ta < eval_count before tm)%nat).
Proof.
  intros Hp. destruct (both_search_total self board Hp)
    as (v & bc & tm & ta & Hm & Ha & Hn).
  eexists _, tm, _, ta. split; [|split].
  - eapply mm_make_move_of_search. exact Hm.
  - eapply ab_make_move_of_search. exact Ha.
  - intros before. unfold eval_count. lia.
Qed.

Lemma pruning_never_costs_more_witness :
  valid_player (player_one positional 3) /\
  exists cm tm ca ta,
    MinMaxPlayer.make_move (player_one positional 3) empty_2x2 = Some (cm, tm)
        /\
    AlphaBetaPlayer.make_move (player_one positional 3) empty_2x2
    = Some (ca, ta) /\
    forall before : nat,
      (eval_count before ta <= eval_count before tm)%nat /\
      (n_skipped ta <> 0%nat ->
       (eval_count before ta < eval_count before tm)%nat).
Proof.
  split; [left; reflexivity|].
  apply (pruning_never_costs_more (player_one positional 3) empty_2x2).
  left; reflexivity.
Defined.

(** C2 fails as stated: at depth 2 on the empty board alpha-beta executes
    one cutoff, after the last column of its node, and evaluates the same
    four leaves as minimax. *)
Lemma cutoff_may_save_nothing :
  summary (MinMaxPlayer.make_move (player_one positional 2) empty_2x2)
  = Some (0, 4%nat, 0%nat, [(0%nat, -1); (1%nat, -1)]) /\
  summary (AlphaBetaPlayer.make_move (player_one positional 2) empty_2x2)
  = Some (0, 4%nat, 1%nat, [(0%nat, -1); (1%nat, -1)]).
Proof. split; reflexivity. Qed.

(** ** C3: depth 0 *)

(** C3 fails on the code.  With [depth = 0] the root loops call [rec] with
    depth -1, which the test [depth == 0] never stops: on the empty board
    both searches play every line to the full board, evaluate six leaves
    and value both columns -1, while the direct evaluation of the two
    positions after the root moves is 0 and 1, which is what [depth = 1]
    computes with its two evaluations. *)
Theorem depth_zero_searches_to_the_end :
  summary (MinMaxPlayer.make_move (player_one positional 0) empty_2x2)
  = Some (0, 6%nat, 0%nat, [(0%nat, -1); (1%nat, -1)]) /\
  summary (AlphaBetaPlayer.make_move (player_one positional 0) empty_2x2)
  = Some (0, 6%nat, 4%nat, [(0%nat, -1); (1%nat, -1)]) /\
  evaluate positional 1 (get_new_board empty_2x2 0 1) = 0 /\
  evaluate positional 1 (get_new_board empty_2x2 1 1) = 1 /\
  summary (MinMaxPlayer.make_move (player_one positional 1) empty_2x2)
  = Some (1, 2%nat, 0%nat, [(0%nat, 0); (1%nat, 1)]) /\
  summary (AlphaBetaPlayer.make_move (player_one positional 1) empty_2x2)
  = Some (1, 2%nat, 0%nat, [(0%nat, 0); (1%nat, 1)]).
Proof. repeat split. Qed.

(** ** C4: leaf scoring *)

(** C4.  At a node where [terminal_or_depth] holds, [rec] of either search
    returns [evaluate_board(player_id, b)] for the player whose
    [make_move] runs, with that one evaluation, on a maximizing and on a
    minimizing ply alike; and in a whole run of either root loop every
    evaluation asked of the heuristic is for that player. *)
Theorem leaf_score_is_for_the_deciding_player (self : Player) (frames : nat)
    (b : Board) (d alpha beta : Z) (maximizing : bool) :
  MinMaxPlayer.terminal_or_depth self b d = true ->
  MinMaxPlayer.rec self (S frames) b d maximizing
  = Some (evaluate (heuristic self) (player_id self) b,
          [Eval (player_id self) b]) /\
  AlphaBetaPlayer.rec self (S frames) b d alpha beta maximizing
  = Some (evaluate (heuristic self) (player_id self) b,
          [Eval (player_id self) b]) /\
  (forall k board r t pid,
     MinMaxPlayer.search self k board = Some (r, t) ->
     In pid (eval_pids t) -> pid = player_id self) /\
  (forall k board r t pid,
     AlphaBetaPlayer.search self k board = Some (r, t) ->
     In pid (eval_pids t) -> pid = player_id self).
Proof.
  intros T. cbn [MinMaxPlayer.rec AlphaBetaPlayer.rec].
  change (AlphaBetaPlayer.terminal_or_depth self b d)
    with (MinMaxPlayer.terminal_or_depth self b d).
  rewrite T. split; [reflexivity|]. split; [reflexivity|]. split.
  - intros k board [v bc] t pid H.
    exact (mm_evaluations_for_self self _ _ _ _ _ H pid).
  - intros k board [v bc] t pid H.
    exact (ab_evaluations_for_self self _ _ _ _ _ H pid).
Qed.

Lemma leaf_score_is_for_the_deciding_player_witness :
  MinMaxPlayer.terminal_or_depth (player_one positional 2) full_2x2 5 = true /\
  MinMaxPlayer.rec (player_one positional 2) 1 full_2x2 5 false
  = Some (evaluate positional 1 full_2x2, [Eval 1 full_2x2]) /\
  AlphaBetaPlayer.rec (player_one positional 2) 1 full_2x2 5 (-7) 7 false
  = Some (evaluate positional 1 full_2x2, [Eval 1 full_2x2]) /\
  (forall k board r t pid,
     MinMaxPlayer.search (player_one positional 2) k board = Some (r, t) ->
     In pid (eval_pids t) -> pid = 1) /\
  (forall k board r t pid,
     AlphaBetaPlayer.search (player_one positional 2) k board = Some (r, t) ->
     In pid (eval_pids t) -> pid = 1).
Proof.
  split; [reflexivity|].
  apply (leaf_score_is_for_the_deciding_player (player_one positional 2) 0
           full_2x2 5 (-7) 7 false).
  reflexivity.
Defined.

(** ** C5: the column of minimax *)

(** C5, as amended.  For every player with id 1 or 2,
    [MinMaxPlayer.make_move] returns -1 when no column of the board is
    legal; it returns a legal column of the board whenever the root loop
    obtained a value above -10**9 for some column, which it does whenever
    a column is legal and every score of the heuristic for the player is
    above -10**9. *)
Theorem minmax_move_is_legal (self : Player) (board : Board) :
  valid_player self ->
  exists col t,
    MinMaxPlayer.make_move self board = Some (col, t) /\
    ((forall c, (c < width board)%nat -> is_valid board c = false) ->
     col = -1) /\
    ((exists c x, In (c, x) (root_values t) /\ - 10 ^ 9 < x) ->
     exists c, col = Z.of_nat c /\ is_valid board c = true) /\
    ((exists c, is_valid board c = true) ->
     (forall b, - 10 ^ 9 < evaluate (heuristic self) (player_id self) b) ->
     exists c, col = Z.of_nat c /\ is_valid board c = true).
Proof.
  intros Hp.
  destruct (mm_search_total self board (valid_player_nonzero self Hp))
    as (v & bc & t & Hm).
  pose proof (mm_search_spec self _ _ _ _ _ Hm) as (_ & Em & Hall & Hsel).
  exists (match bc with Some c => Z.of_nat c | None => -1 end), t.
  split; [eapply mm_make_move_of_search; exact Hm|].
  assert (Hroot : (exists c x, In (c, x) (root_values t) /\ - 10 ^ 9 < x) ->
                  exists c, (match bc with Some c => Z.of_nat c | None => -1
                      end)
                            = Z.of_nat c /\ is_valid board c = true).
  { intros (c & x & Hin & Hx). destruct Hsel as [[_ ->]|(c0 & -> & Hin0 & _)].
    - apply Hall in Hin. lia.
    - exists c0. split; [reflexivity|].
      now apply (root_values_in_cols _ _ _ Em) in Hin0. }
  split; [|split; [exact Hroot|]].
  - intros Hnone. destruct Hsel as [[-> _]|(c & _ & Hin & _)]; [reflexivity|].
    apply (root_values_in_cols _ _ _ Em) in Hin as (Hc & V).
    apply in_seq in Hc. rewrite Hnone in V by (simpl in Hc; lia).
    discriminate.
  - intros (c & V) Hlow. apply Hroot.
    assert (Hin : In c (map fst (root_values t))).
    { rewrite Em. apply filter_In. split; [|exact V].
      apply in_seq. pose proof (is_valid_lt _ _ V). simpl. lia. }
    apply in_map_iff in Hin as ([c' x] & E & Hin). simpl in E. subst c'.
    exists c, x. split; [exact Hin|].
    unfold MinMaxPlayer.search in Hm.
    eapply (mm_for_root_values self (fun x => - 10 ^ 9 < x)); [|exact Hm|exact
        Hin].
    intros b' v' t' Hb'. split; [eapply mm_rec_inner; exact Hb'|].
    eapply (mm_rec_lower self (- 10 ^ 9) Hlow); [reflexivity|exact Hb'].
Qed.

Lemma minmax_move_is_legal_witness :
  valid_player (player_one positional 2) /\
  exists col t,
    MinMaxPlayer.make_move (player_one positional 2) left_full_2x2
    = Some (col, t) /\
    ((forall c, (c < width left_full_2x2)%nat ->
                is_valid left_full_2x2 c = false) -> col = -1) /\
    ((exists c x, In (c, x) (root_values t) /\ - 10 ^ 9 < x) ->
     exists c, col = Z.of_nat c /\ is_valid left_full_2x2 c = true) /\
    ((exists c, is_valid left_full_2x2 c = true) ->
     (forall b, - 10 ^ 9 < evaluate (heuristic (player_one positional 2))
                             (player_id (player_one positional 2)) b) ->
     exists c, col = Z.of_nat c /\ is_valid left_full_2x2 c = true).
Proof.
  split; [left; reflexivity|].
  apply (minmax_move_is_legal (player_one positional 2) left_full_2x2).
  left; reflexivity.
Defined.

(** C5 fails as stated: with a heuristic whose scores are -10**9, both
    columns of the empty board are legal and minimax returns -1. *)
Lemma minmax_sentinel_despite_legal_columns :
  is_valid empty_2x2 0 = true /\ is_valid empty_2x2 1 = true /\
  summary (MinMaxPlayer.make_move (player_one hopeless 1) empty_2x2)
  = Some (-1, 2%nat, 0%nat, [(0%nat, - 10 ^ 9); (1%nat, - 10 ^ 9)]).
Proof. repeat split. Qed.

(** ** C6: no legal column *)

(** C6.  On a board without a legal column [AlphaBetaPlayer.make_move]
    returns column 0 and [MinMaxPlayer.make_move] returns -1, neither
    evaluating anything. *)
Theorem full_board_defaults (self : Player) (board : Board) :
  (forall c, (c < width board)%nat -> is_valid board c = false) ->
  AlphaBetaPlayer.make_move self board = Some (0, []) /\
  MinMaxPlayer.make_move self board = Some (-1, []).
Proof.
  intros Hnone.
  assert (H : forall c, In c (range (width board)) -> is_valid board c = false).
  { intros c Hc. apply in_seq in Hc. apply Hnone. simpl in Hc. lia. }
  unfold AlphaBetaPlayer.make_move, AlphaBetaPlayer.make_move_within,
    AlphaBetaPlayer.search, MinMaxPlayer.make_move,
    MinMaxPlayer.make_move_within, MinMaxPlayer.search.
  rewrite (ab_for_root_none self _ _ _ _ _ _ _ H).
  rewrite (mm_for_root_none self _ _ _ _ _ H).
  split; reflexivity.
Qed.

Lemma full_board_defaults_witness :
  (forall c, (c < width full_2x2)%nat -> is_valid full_2x2 c = false) /\
  AlphaBetaPlayer.make_move (player_one positional 2) full_2x2 = Some (0, []) /\
  MinMaxPlayer.make_move (player_one positional 2) full_2x2 = Some (-1, []).
Proof.
  assert (H : forall c, (c < width full_2x2)%nat -> is_valid full_2x2 c =
      false).
  { intros [|[|c]] Hc; [reflexivity|reflexivity|simpl in Hc; lia]. }
  split; [exact H|].
  apply (full_board_defaults (player_one positional 2) full_2x2 H).
Defined.

(** ** C7: the tie-break of the root loops *)

(** C7, as amended.  For every player with id 1 or 2, both root loops
    obtain a value for the legal columns of the board in increasing order
    of the column, and whenever one of these values is above -10**9 the
    column returned is the lowest among the columns whose value is the
    greatest. *)
Theorem root_loops_keep_the_first_best (self : Player) (board : Board) :
  valid_player self ->
  exists cm tm ca ta,
    MinMaxPlayer.make_move self board = Some (cm, tm) /\
    AlphaBetaPlayer.make_move self board = Some (ca, ta) /\
    map fst (root_values tm) = filter (is_valid board) (range (width board)) /\
    map fst (root_values ta) = filter (is_valid board) (range (width board)) /\
    ((exists c x, In (c, x) (root_values tm) /\ - 10 ^ 9 < x) ->
     exists v, first_max (root_values tm) cm v) /\
    ((exists c x, In (c, x) (root_values ta) /\ - 10 ^ 9 < x) ->
     exists v, first_max (root_values ta) ca v).
Proof.
  intros Hp. destruct (both_search_total self board Hp)
    as (v & bc & tm & ta & Hm & Ha & _).
  pose proof (mm_search_spec self _ _ _ _ _ Hm) as (_ & Em & Hall & Hsel).
  pose proof (ab_search_spec self _ _ _ _ _ Ha) as (_ & Ea & Halla & Hsela).
  eexists _, tm, _, ta.
  split; [eapply mm_make_move_of_search; exact Hm|].
  split; [eapply ab_make_move_of_search; exact Ha|].
  split; [exact Em|]. split; [exact Ea|]. split.
  - intros (c & x & Hin & Hx). exists v.
    destruct Hsel as [[_ ->]|(c0 & -> & Hin0 & Hfirst)].
    + apply Hall in Hin. lia.
    + exists c0. repeat split; eauto.
  - intros (c & x & Hin & Hx). exists v.
    destruct Hsela as [[_ ->]|(c0 & E & Hin0 & Hfirst)].
    + apply Halla in Hin. lia.
    + exists c0. repeat split; eauto.
Qed.

Lemma root_loops_keep_the_first_best_witness :
  valid_player (player_one positional 1) /\
  exists cm tm ca ta,
    MinMaxPlayer.make_move (player_one positional 1) empty_2x2 = Some (cm, tm)
        /\
    AlphaBetaPlayer.make_move (player_one positional 1) empty_2x2
    = Some (ca, ta) /\
    map fst (root_values tm)
    = filter (is_valid empty_2x2) (range (width empty_2x2)) /\
    map fst (root_values ta)
    = filter (is_valid empty_2x2) (range (width empty_2x2)) /\
    ((exists c x, In (c, x) (root_values tm) /\ - 10 ^ 9 < x) ->
     exists v, first_max (root_values tm) cm v) /\
    ((exists c x, In (c, x) (root_values ta) /\ - 10 ^ 9 < x) ->
     exists v, first_max (root_values ta) ca v).
Proof.
  split; [left; reflexivity|].
  apply (root_loops_keep_the_first_best (player_one positional 1) empty_2x2).
  left; reflexivity.
Defined.

(** C7 fails as stated: with scores of -10**9 the two columns of the empty
    board have equal and greatest values, and minimax returns -1 instead of
    column 0; with the first column full, alpha-beta returns column 0, for
    which it obtained no value. *)
Lemma equal_best_values_without_first_column :
  summary (MinMaxPlayer.make_move (player_one hopeless 1) empty_2x2)
  = Some (-1, 2%nat, 0%nat, [(0%nat, - 10 ^ 9); (1%nat, - 10 ^ 9)]) /\
  is_valid left_full_2x2 0 = false /\
  summary (AlphaBetaPlayer.make_move (player_one hopeless 1) left_full_2x2)
  = Some (0, 1%nat, 0%nat, [(1%nat, - 10 ^ 9)]).
Proof. repeat split. Qed.

(** ** C8: the nesting of [rec] *)

(** C8 fails on the code.  With [depth = 0] on the empty board of four
    cells, three nested frames of [rec] are not enough for either search
    and four are: the chain of nested calls is as long as the board has
    empty cells, not bounded by the configured depth. *)
Theorem depth_zero_nests_to_the_full_board :
  MinMaxPlayer.make_move_within (player_one positional 0) 3 empty_2x2 = None /\
  summary (MinMaxPlayer.make_move_within (player_one positional 0) 4 empty_2x2)
  = Some (0, 6%nat, 0%nat, [(0%nat, -1); (1%nat, -1)]) /\
  AlphaBetaPlayer.make_move_within (player_one positional 0) 3 empty_2x2 = None
      /\
  summary (AlphaBetaPlayer.make_move_within (player_one positional 0) 4
      empty_2x2)
  = Some (0, 6%nat, 4%nat, [(0%nat, -1); (1%nat, -1)]).
Proof. repeat split. Qed.

(** ** C9: moves go to legal columns *)

(** C9.  For every player with id 1 or 2 and every board, every call of
    [get_new_board] in a run of either [make_move], in the root loop and
    in the loops of [rec], is for a column that [is_valid] accepts on the
    board the move is applied to. *)
Theorem moves_are_checked_first (self : Player) (board : Board) :
  valid_player self ->
  exists cm tm ca ta,
    MinMaxPlayer.make_move self board = Some (cm, tm) /\
    AlphaBetaPlayer.make_move self board = Some (ca, ta) /\
    (forall b c, In (b, c) (moves tm) -> is_valid b c = true) /\
    (forall b c, In (b, c) (moves ta) -> is_valid b c = true).
Proof.
  intros Hp. destruct (both_search_total self board Hp)
    as (v & bc & tm & ta & Hm & Ha & _).
  pose proof (mm_search_spec self _ _ _ _ _ Hm) as (Fm & _).
  pose proof (ab_search_spec self _ _ _ _ _ Ha) as (Fa & _).
  eexists _, tm, _, ta.
  split; [eapply mm_make_move_of_search; exact Hm|].
  split; [eapply ab_make_move_of_search; exact Ha|].
  split; apply (event_ok_moves self); assumption.
Qed.

Lemma moves_are_checked_first_witness :
  valid_player (player_one positional 3) /\
  exists cm tm ca ta,
    MinMaxPlayer.make_move (player_one positional 3) left_full_2x2
    = Some (cm, tm) /\
    AlphaBetaPlayer.make_move (player_one positional 3) left_full_2x2
    = Some (ca, ta) /\
    (forall b c, In (b, c) (moves tm) -> is_valid b c = true) /\
    (forall b c, In (b, c) (moves ta) -> is_valid b c = true).
Proof.
  split; [left; reflexivity|].
  apply (moves_are_checked_first (player_one positional 3) left_full_2x2).
  left; reflexivity.
Defined.

(** ** C10: the column of alpha-beta *)

(** C10.  For every player with id 1 or 2 and every board of width at
    least 1, [AlphaBetaPlayer.make_move] returns a column [c] with
    [0 <= c < width]: the initial 0 or a legal column of the board. *)
Theorem alphabeta_column_in_range (self : Player) (board : Board) :
  valid_player self -> (1 <= width board)%nat ->
  exists c t,
    AlphaBetaPlayer.make_move self board = Some (c, t) /\
    0 <= c < Z.of_nat (width board) /\
    (c = 0 \/ exists n, c = Z.of_nat n /\ is_valid board n = true).
Proof.
  intros Hp Hw. destruct (both_search_total self board Hp)
    as (v & bc & tm & ta & Hm & Ha & _).
  pose proof (ab_search_spec self _ _ _ _ _ Ha) as (_ & Ea & _ & Hsel).
  eexists _, ta. split; [eapply ab_make_move_of_search; exact Ha|].
  destruct Hsel as [[-> _]|(c & -> & Hin & _)].
  - split; [lia|now left].
  - apply (root_values_in_cols _ _ _ Ea) in Hin as (_ & V).
    pose proof (is_valid_lt _ _ V). split; [lia|right; eauto].
Qed.

Lemma alphabeta_column_in_range_witness :
  valid_player (player_one hopeless 2) /\ (1 <= width full_2x2)%nat /\
  exists c t,
    AlphaBetaPlayer.make_move (player_one hopeless 2) full_2x2 = Some (c, t) /\
    0 <= c < Z.of_nat (width full_2x2) /\
    (c = 0 \/ exists n, c = Z.of_nat n /\ is_valid full_2x2 n = true).
Proof.
  split; [left; reflexivity|]. split; [simpl; lia|].
  apply (alphabeta_column_in_range (player_one hopeless 2) full_2x2).
  - left; reflexivity.
  - simpl; lia.
Defined.

(** * Further properties *)

(** ** The search players *)

Section MoreSearch.

Variable self : Player.

Lemma has_empty_count (col : list Z) :
  has_empty col = true -> (1 <= count_empty col)%nat.
Proof.
  unfold has_empty, count_empty.
  induction col as [|x col IH]; cbn [existsb filter]; [discriminate|].
  destruct (0 =? x); cbn [orb length]; [lia|exact IH].
Qed.

Lemma is_valid_empty_cells (b : Board) (c : nat) :
  is_valid b c = true -> (1 <= empty_cells b)%nat.
Proof.
  unfold is_valid, empty_cells. revert c.
  induction b as [|col rest IH]; intros [|c] H;
    cbn [nth map list_sum fold_right] in *.
  - discriminate H.
  - discriminate H.
  - apply has_empty_count in H. lia.
  - apply IH in H. unfold list_sum in H. lia.
Qed.

Lemma ab_for_max_evals (child : Board -> Z -> Z -> M Z) b beta cols :
  (forall b' a' be' v t, child b' a' be' = Some (v, t) -> (1 <= n_evals t)%nat)
      ->
  forall value alpha r t,
    AlphaBetaPlayer.for_max self child b cols value alpha beta = Some (r, t) ->
    existsb (is_valid b) cols = true -> (1 <= n_evals t)%nat.
Proof.
  intros Hc. induction cols as [|c cs IH]; intros value alpha r t H E;
    [discriminate|].
  destruct (is_valid b c) eqn:V.
  - destruct (ab_for_max_child _ _ _ _ _ _ _ _ _ _ V H) as (v & tv & Hv).
    rewrite (ab_for_max_step self child b c cs value alpha beta v tv V Hv) in H.
    apply Hc in Hv.
    destruct (Z.max alpha (Z.max value v) >=? beta).
    + injection H as _ <-. autorewrite with logs. lia.
    + destruct (AlphaBetaPlayer.for_max self child b cs _ _ _)
        as [[r' tr]|]; [|discriminate].
      injection H as _ <-. autorewrite with logs. lia.
  - rewrite ab_for_max_skip in H by assumption.
    cbn [existsb] in E. rewrite V in E. eauto.
Qed.

Lemma ab_for_min_evals (child : Board -> Z -> Z -> M Z) b alpha cols :
  (forall b' a' be' v t, child b' a' be' = Some (v, t) -> (1 <= n_evals t)%nat)
      ->
  forall value beta r t,
    AlphaBetaPlayer.for_min self child b cols value alpha beta = Some (r, t) ->
    existsb (is_valid b) cols = true -> (1 <= n_evals t)%nat.
Proof.
  intros Hc. induction cols as [|c cs IH]; intros value beta r t H E;
    [discriminate|].
  destruct (is_valid b c) eqn:V.
  - destruct (ab_for_min_child _ _ _ _ _ _ _ _ _ _ V H) as (v & tv & Hv).
    rewrite (ab_for_min_step self child b c cs value alpha beta v tv V Hv) in H.
    apply Hc in Hv.
    destruct (alpha >=? Z.min beta (Z.min value v)).
    + injection H as _ <-. autorewrite with logs. lia.
    + destruct (AlphaBetaPlayer.for_min self child b cs _ _ _)
        as [[r' tr]|]; [|discriminate].
      injection H as _ <-. autorewrite with logs. lia.
  - rewrite ab_for_min_skip in H by assumption.
    cbn [existsb] in E. rewrite V in E. eauto.
Qed.

(** Every call of the alpha-beta evaluator evaluates at least one leaf. *)
Lemma ab_rec_evals :
  forall frames b d alpha beta mx v t,
    AlphaBetaPlayer.rec self frames b d alpha beta mx = Some (v, t) ->
    (1 <= n_evals t)%nat.
Proof.
  induction frames as [|frames IH]; intros b d alpha beta mx v t H;
    [discriminate|].
  cbn [AlphaBetaPlayer.rec] in H.
  change (AlphaBetaPlayer.terminal_or_depth self b d)
    with (MinMaxPlayer.terminal_or_depth self b d) in H.
  destruct (MinMaxPlayer.terminal_or_depth self b d) eqn:T.
  - unfold AlphaBetaPlayer.score in H. rewrite evaluate_board_eq in H.
    injection H as _ <-. autorewrite with logs. lia.
  - apply mm_not_terminal in T. destruct mx.
    + eapply ab_for_max_evals; [|exact H|exact T].
      intros b' a' be' v' t'. apply IH.
    + eapply ab_for_min_evals; [|exact H|exact T].
      intros b' a' be' v' t'. apply IH.
Qed.

End MoreSearch.

(** X1.  With a search depth of at least 1, for every player id and every
    board, both [make_move] return within [depth] nested frames of [rec],
    and with more frames they return the same. *)
Theorem searches_nest_within_depth (self : Player) (board : Board) :
  1 <= depth self ->
  exists cm tm ca ta,
    (forall extra,
       MinMaxPlayer.make_move_within self (extra + Z.to_nat (depth self)) board
       = Some (cm, tm)) /\
    (forall extra,
       AlphaBetaPlayer.make_move_within self (extra + Z.to_nat (depth self))
         board = Some (ca, ta)).
Proof.
  intros Hd.
  destruct (searches_within_depth self board Hd) as ([v bc] & tm & ta & Hm &
      Ha).
  eexists _, tm, _, ta. split; intros extra.
  - apply mm_make_move_within_more. eapply mm_make_move_of_search. exact Hm.
  - apply ab_make_move_within_more. eapply ab_make_move_of_search. exact Ha.
Qed.

Lemma searches_nest_within_depth_witness :
  1 <= depth (player_one positional 2) /\
  exists cm tm ca ta,
    (forall extra,
       MinMaxPlayer.make_move_within (player_one positional 2)
         (extra + Z.to_nat (depth (player_one positional 2))) empty_2x2
       = Some (cm, tm)) /\
    (forall extra,
       AlphaBetaPlayer.make_move_within (player_one positional 2)
         (extra + Z.to_nat (depth (player_one positional 2))) empty_2x2
       = Some (ca, ta)).
Proof.
  split; [simpl; lia|].
  apply (searches_nest_within_depth (player_one positional 2) empty_2x2).
  simpl; lia.
Defined.

(** X2.  For a player with id 1 or 2 and a window [alpha < beta], the
    value [r] that the alpha-beta [rec] returns at a node bounds the value
    [m] that the minimax [rec] returns there: above [alpha] it is at most
    [m], below [beta] it is at least [m], so strictly inside the window it
    is [m]; and it costs no more leaf evaluations. *)
Theorem alphabeta_value_bounds_minimax (self : Player) (b : Board)
    (d alpha beta : Z) (maximizing : bool) :
  valid_player self -> alpha < beta ->
  exists m tm r ta,
    MinMaxPlayer.rec self (S (empty_cells b)) b d maximizing = Some (m, tm) /\
    AlphaBetaPlayer.rec self (S (empty_cells b)) b d alpha beta maximizing
    = Some (r, ta) /\
    (alpha < r -> r <= m) /\ (r < beta -> m <= r) /\
    (alpha < r < beta -> r = m) /\
    (n_evals ta <= n_evals tm)%nat.
Proof.
  intros Hp Hab.
  destruct (mm_rec_total self (valid_player_nonzero self Hp)
              (S (empty_cells b)) b d maximizing) as (m & tm & Hm); [lia|].
  destruct (ab_rec_exists self _ _ _ _ _ _ Hm alpha beta) as (r & ta & Ha & Hn).
  destruct (ab_rec_bounds self _ _ _ _ _ _ _ _ _ _ Hab Hm Ha) as (K1 & K2).
  exists m, tm, r, ta. repeat split; try assumption; lia.
Qed.

Lemma alphabeta_value_bounds_minimax_witness :
  valid_player (player_one positional 3) /\ -1 < 1 /\
  exists m tm r ta,
    MinMaxPlayer.rec (player_one positional 3) (S (empty_cells empty_2x2))
      empty_2x2 3 true = Some (m, tm) /\
    AlphaBetaPlayer.rec (player_one positional 3) (S (empty_cells empty_2x2))
      empty_2x2 3 (-1) 1 true = Some (r, ta) /\
    (-1 < r -> r <= m) /\ (r < 1 -> m <= r) /\
    (-1 < r < 1 -> r = m) /\
    (n_evals ta <= n_evals tm)%nat.
Proof.
  split; [left; reflexivity|]. split; [lia|].
  apply (alphabeta_value_bounds_minimax (player_one positional 3) empty_2x2
           3 (-1) 1 true).
  - left; reflexivity.
  - lia.
Defined.

(** *** Depth 1 *)

Section DepthOne.

Variable self : Player.

Lemma terminal_at_depth_zero (b : Board) :
  MinMaxPlayer.terminal_or_depth self b 0 = true.
Proof.
  unfold MinMaxPlayer.terminal_or_depth. cbv zeta.
  change (0 =? 0) with true. now rewrite orb_true_r.
Qed.

Lemma mm_for_root_direct (child : Board -> M Z) board cols :
  (forall c, is_valid board c = true ->
     child (get_new_board board c (player_id self))
     = Some (evaluate (heuristic self) (player_id self)
               (get_new_board board c (player_id self)),
             [Eval (player_id self) (get_new_board board c (player_id self))]))
                 ->
  forall bv bc, exists r t,
    MinMaxPlayer.for_root self child board cols bv bc = Some (r, t) /\
    root_values t
    = map (fun c => (c, evaluate (heuristic self) (player_id self)
                          (get_new_board board c (player_id self))))
          (filter (is_valid board) cols) /\
    n_evals t = length (filter (is_valid board) cols).
Proof.
  intros Hc. induction cols as [|c cs IH]; intros bv bc.
  - exists (bv, bc), []. repeat split.
  - cbn [filter]. destruct (is_valid board c) eqn:V.
    + rewrite (mm_for_root_step self child board c cs bv bc _ _ V (Hc c V)).
      match goal with
      | |- context [MinMaxPlayer.for_root self child board cs ?x ?y] =>
          destruct (IH x y) as (r & t & E & Hr & Hn); rewrite E
      end.
      eexists _, _. split; [reflexivity|]. split.
      * cbn [root_values app map]. now rewrite Hr.
      * cbn [app length]. autorewrite with logs. now rewrite Hn.
    + rewrite mm_for_root_skip by assumption. apply IH.
Qed.

Lemma ab_for_root_direct (child : Board -> Z -> Z -> M Z) board cols beta :
  (forall c alpha, is_valid board c = true ->
     child (get_new_board board c (player_id self)) alpha beta
     = Some (evaluate (heuristic self) (player_id self)
               (get_new_board board c (player_id self)),
             [Eval (player_id self) (get_new_board board c (player_id self))]))
                 ->
  forall bv bc alpha, exists r t,
    AlphaBetaPlayer.for_root self child board cols bv bc alpha beta
    = Some (r, t) /\
    root_values t
    = map (fun c => (c, evaluate (heuristic self) (player_id self)
                          (get_new_board board c (player_id self))))
          (filter (is_valid board) cols) /\
    n_evals t = length (filter (is_valid board) cols).
Proof.
  intros Hc. induction cols as [|c cs IH]; intros bv bc alpha.
  - exists (bv, bc), []. repeat split.
  - cbn [filter]. destruct (is_valid board c) eqn:V.
    + rewrite (ab_for_root_step self child board c cs bv bc alpha beta _ _ V
                 (Hc c alpha V)).
      match goal with
      | |- context [AlphaBetaPlayer.for_root self child board cs ?x ?y ?z _] =>
          destruct (IH x y z) as (r & t & E & Hr & Hn); rewrite E
      end.
      eexists _, _. split; [reflexivity|]. split.
      * cbn [root_values app map]. now rewrite Hr.
      * cbn [app length]. autorewrite with logs. now rewrite Hn.
    + rewrite ab_for_root_skip by assumption. apply IH.
Qed.

End DepthOne.

(** X3.  With [depth = 1] both [make_move] are one-ply: the value they
    obtain for each legal column is the heuristic's score, for the
    deciding player, of the board after that move, and they evaluate
    exactly one leaf per legal column. *)
Theorem depth_one_is_one_ply (self : Player) (board : Board) :
  depth self = 1 ->
  exists cm tm ca ta,
    MinMaxPlayer.make_move self board = Some (cm, tm) /\
    AlphaBetaPlayer.make_move self board = Some (ca, ta) /\
    root_values tm
    = map (fun c => (c, evaluate (heuristic self) (player_id self)
                          (get_new_board board c (player_id self))))
          (legal_columns board) /\
    root_values ta = root_values tm /\
    n_evals tm = length (legal_columns board) /\
    n_evals ta = length (legal_columns board).
Proof.
  intros Hd.
  assert (Hm : forall c, is_valid board c = true ->
             MinMaxPlayer.rec self (empty_cells board)
               (get_new_board board c (player_id self)) (depth self - 1) false
             = Some (evaluate (heuristic self) (player_id self)
                       (get_new_board board c (player_id self)),
                     [Eval (player_id self)
                        (get_new_board board c (player_id self))])).
  { intros c V. apply is_valid_empty_cells in V.
    destruct (empty_cells board) as [|k]; [lia|].
    rewrite Hd. cbn [MinMaxPlayer.rec]. change (1 - 1) with 0.
    now rewrite terminal_at_depth_zero. }
  assert (Ha : forall c (alpha : Z), is_valid board c = true ->
             AlphaBetaPlayer.rec self (empty_cells board)
               (get_new_board board c (player_id self)) (depth self - 1)
               alpha (10 ^ 9) false
             = Some (evaluate (heuristic self) (player_id self)
                       (get_new_board board c (player_id self)),
                     [Eval (player_id self)
                        (get_new_board board c (player_id self))])).
  { intros c alpha V. apply is_valid_empty_cells in V.
    destruct (empty_cells board) as [|k]; [lia|].
    rewrite Hd. cbn [AlphaBetaPlayer.rec]. change (1 - 1) with 0.
    change (AlphaBetaPlayer.terminal_or_depth self
              (get_new_board board c (player_id self)) 0)
      with (MinMaxPlayer.terminal_or_depth self
              (get_new_board board c (player_id self)) 0).
    now rewrite terminal_at_depth_zero. }
  destruct (mm_for_root_direct self
              (fun b' =>
                 MinMaxPlayer.rec self (empty_cells board) b'
                   (depth self - 1) false)
              board (range (width board)) Hm
              (- 10 ^ 9) None) as ([vm bm] & tm & Em & Rm & Nm).
  destruct (ab_for_root_direct self
              (fun b' a' b'' =>
                 AlphaBetaPlayer.rec self (empty_cells board) b'
                   (depth self - 1) a' b'' false)
              board (range (width board)) (10 ^ 9) Ha
              (- 10 ^ 9) 0 (- 10 ^ 9)) as ([va ba] & ta & Ea & Ra & Na).
  eexists _, tm, _, ta.
  split; [eapply mm_make_move_of_search; exact Em|].
  split; [eapply ab_make_move_of_search; exact Ea|].
  unfold legal_columns. rewrite Rm, Ra. auto.
Qed.

Lemma depth_one_is_one_ply_witness :
  depth (player_one positional 1) = 1 /\
  exists cm tm ca ta,
    MinMaxPlayer.make_move (player_one positional 1) left_full_2x2
    = Some (cm, tm) /\
    AlphaBetaPlayer.make_move (player_one positional 1) left_full_2x2
    = Some (ca, ta) /\
    root_values tm
    = map (fun c => (c, evaluate (heuristic (player_one positional 1))
                          (player_id (player_one positional 1))
                          (get_new_board left_full_2x2 c
                             (player_id (player_one positional 1)))))
          (legal_columns left_full_2x2) /\
    root_values ta = root_values tm /\
    n_evals tm = length (legal_columns left_full_2x2) /\
    n_evals ta = length (legal_columns left_full_2x2).
Proof.
  split; [reflexivity|].
  apply (depth_one_is_one_ply (player_one positional 1) left_full_2x2).
  reflexivity.
Defined.

(** *** The value is the score of an evaluated leaf *)

Section LeafScores.

Variable self : Player.








Hypothesis scores_in_range :
  forall b, - 10 ^ 9 <= evaluate (heuristic self) (player_id self) b <= 10 ^ 9.








End LeafScores.



(** *** The cost of minimax *)

Section SameVisits.

Variables p q : Player.
Hypothesis same_id : player_id p = player_id q.
Hypothesis same_n : game_n p = game_n q.
Hypothesis same_winning :
  forall state n, winning (heuristic p) state n = winning (heuristic q) state n.

Lemma same_opponent : MinMaxPlayer.opponent p = MinMaxPlayer.opponent q.
Proof. unfold MinMaxPlayer.opponent. now rewrite same_id. Qed.

Lemma same_terminal (b : Board) (d : Z) :
  MinMaxPlayer.terminal_or_depth p b d = MinMaxPlayer.terminal_or_depth q b d.
Proof.
  unfold MinMaxPlayer.terminal_or_depth. now rewrite same_winning, same_n.
Qed.

Lemma same_visits_step b c pid pid' tv tv' tr tr' :
  same_visits tv tv' -> same_visits tr tr' ->
  same_visits (Move b c pid :: tv ++ tr) (Move b c pid' :: tv' ++ tr').
Proof.
  intros (E1 & M1) (E2 & M2). split.
  - autorewrite with logs. lia.
  - cbn [moves]. rewrite !moves_app. now rewrite M1, M2.
Qed.

Lemma mm_for_max_visits (childp childq : Board -> M Z) b cols :
  (forall b' v t, childp b' = Some (v, t) ->
     exists v' t', childq b' = Some (v', t') /\ same_visits t t') ->
  forall best best' r t,
    MinMaxPlayer.for_max p childp b cols best = Some (r, t) ->
    exists r' t',
      MinMaxPlayer.for_max q childq b cols best' = Some (r', t') /\
      same_visits t t'.
Proof.
  intros Hc. induction cols as [|c cs IH]; intros best best' r t H.
  - injection H as _ <-. exists best', []. now repeat split.
  - destruct (is_valid b c) eqn:V.
    + apply mm_for_max_inv in H as (v & tv & tr & Hv & H & ->); [|assumption].
      destruct (Hc _ _ _ Hv) as (v' & tv' & Hv' & S1).
      rewrite same_id in Hv'.
      rewrite (mm_for_max_step q childq b c cs best' v' tv' V Hv').
      destruct (IH _ (Z.max best' v') _ _ H) as (r' & tr' & -> & S2).
      eexists _, _. split; [reflexivity|]. now apply same_visits_step.
    + rewrite mm_for_max_skip in H by assumption.
      rewrite mm_for_max_skip by assumption. eauto.
Qed.

Lemma mm_for_min_visits (childp childq : Board -> M Z) b cols :
  (forall b' v t, childp b' = Some (v, t) ->
     exists v' t', childq b' = Some (v', t') /\ same_visits t t') ->
  forall best best' r t,
    MinMaxPlayer.for_min p childp b cols best = Some (r, t) ->
    exists r' t',
      MinMaxPlayer.for_min q childq b cols best' = Some (r', t') /\
      same_visits t t'.
Proof.
  intros Hc. induction cols as [|c cs IH]; intros best best' r t H.
  - injection H as _ <-. exists best', []. now repeat split.
  - destruct (is_valid b c) eqn:V.
    + apply mm_for_min_inv in H as (v & tv & tr & Hv & H & ->); [|assumption].
      destruct (Hc _ _ _ Hv) as (v' & tv' & Hv' & S1).
      rewrite same_opponent in Hv'.
      rewrite (mm_for_min_step q childq b c cs best' v' tv' V Hv').
      destruct (IH _ (Z.min best' v') _ _ H) as (r' & tr' & -> & S2).
      eexists _, _. split; [reflexivity|]. now apply same_visits_step.
    + rewrite mm_for_min_skip in H by assumption.
      rewrite mm_for_min_skip by assumption. eauto.
Qed.

Lemma mm_rec_visits :
  forall frames b d mx v t,
    MinMaxPlayer.rec p frames b d mx = Some (v, t) ->
    exists v' t',
      MinMaxPlayer.rec q frames b d mx = Some (v', t') /\ same_visits t t'.
Proof.
  induction frames as [|frames IH]; intros b d mx v t H; [discriminate|].
  cbn [MinMaxPlayer.rec] in *. rewrite <- same_terminal.
  destruct (MinMaxPlayer.terminal_or_depth p b d).
  - unfold MinMaxPlayer.score in *. rewrite evaluate_board_eq in *.
    injection H as _ <-. eexists _, _. split; [reflexivity|].
    now split.
  - destruct mx.
    + eapply mm_for_max_visits; [|exact H]. intros b' v' t'. apply IH.
    + eapply mm_for_min_visits; [|exact H]. intros b' v' t'. apply IH.
Qed.

Lemma mm_for_root_visits (childp childq : Board -> M Z) b cols :
  (forall b' v t, childp b' = Some (v, t) ->
     exists v' t', childq b' = Some (v', t') /\ same_visits t t') ->
  forall bv bc bv' bc' r t,
    MinMaxPlayer.for_root p childp b cols bv bc = Some (r, t) ->
    exists r' t',
      MinMaxPlayer.for_root q childq b cols bv' bc' = Some (r', t') /\
      same_visits t t'.
Proof.
  intros Hc. induction cols as [|c cs IH]; intros bv bc bv' bc' r t H.
  - injection H as _ <-. exists (bv', bc'), []. now repeat split.
  - destruct (is_valid b c) eqn:V.
    + apply mm_for_root_inv in H as (v & tv & tr & Hv & H & ->); [|assumption].
      destruct (Hc _ _ _ Hv) as (v' & tv' & Hv' & S1).
      rewrite same_id in Hv'.
      rewrite (mm_for_root_step q childq b c cs bv' bc' v' tv' V Hv').
      destruct (IH _ _ (if v' >? bv' then v' else bv')
                   (if v' >? bv' then Some c else bc') _ _ H)
        as (r' & tr' & -> & (E2 & M2)).
      eexists _, _. split; [reflexivity|]. destruct S1 as (E1 & M1). split.
      * change (Root c v :: tr) with ([Root c v] ++ tr).
        change (Root c v' :: tr') with ([Root c v'] ++ tr').
        autorewrite with logs. lia.
      * cbn [moves]. rewrite !moves_app. cbn [moves]. now rewrite M1, M2.
    + rewrite mm_for_root_skip in H by assumption.
      rewrite mm_for_root_skip by assumption. eauto.
Qed.

End SameVisits.

(** X5.  The work of minimax does not depend on the scores: two
    [MinMaxPlayer]s with the same id (1 or 2), win length and depth, whose
    heuristics agree on [winning], apply the same moves in the same order
    and evaluate the same number of leaves on every board, whatever their
    [evaluate] return. *)
Theorem minimax_cost_ignores_scores (p q : Player) (board : Board) :
  valid_player p ->
  player_id p = player_id q -> game_n p = game_n q -> depth p = depth q ->
  (forall state n,
     winning (heuristic p) state n = winning (heuristic q) state n) ->
  exists cp tp cq tq,
    MinMaxPlayer.make_move p board = Some (cp, tp) /\
    MinMaxPlayer.make_move q board = Some (cq, tq) /\
    n_evals tp = n_evals tq /\ moves tp = moves tq.
Proof.
  intros Hp Hid Hn Hd Hw.
  destruct (mm_search_total p board (valid_player_nonzero p Hp))
    as (v & bc & tp & Hs).
  pose proof Hs as Hs'. unfold MinMaxPlayer.search in Hs'.
  eapply (mm_for_root_visits p q Hid) with
    (childq := fun b' => MinMaxPlayer.rec q (empty_cells board) b'
                           (depth q - 1) false)
    (bv' := - 10 ^ 9) (bc' := @None nat) in Hs'.
  - destruct Hs' as ([v' bc'] & tq & Hq & E & Mv).
    eexists _, tp, _, tq.
    split; [eapply mm_make_move_of_search; exact Hs|].
    split; [eapply mm_make_move_of_search; exact Hq|].
    now split.
  - intros b' v0 t0 H0. rewrite Hd in H0.
    eapply mm_rec_visits; eassumption.
Qed.

Lemma minimax_cost_ignores_scores_witness :
  valid_player (player_one positional 2) /\
  player_id (player_one positional 2) = player_id (player_one hopeless 2) /\
  game_n (player_one positional 2) = game_n (player_one hopeless 2) /\
  depth (player_one positional 2) = depth (player_one hopeless 2) /\
  (forall state n,
     winning (heuristic (player_one positional 2)) state n
     = winning (heuristic (player_one hopeless 2)) state n) /\
  exists cp tp cq tq,
    MinMaxPlayer.make_move (player_one positional 2) empty_2x2 = Some (cp, tp)
        /\
    MinMaxPlayer.make_move (player_one hopeless 2) empty_2x2 = Some (cq, tq) /\
    n_evals tp = n_evals tq /\ moves tp = moves tq.
Proof.
  split; [left; reflexivity|]. repeat (split; [reflexivity|]).
  apply (minimax_cost_ignores_scores (player_one positional 2)
           (player_one hopeless 2) empty_2x2);
    try reflexivity. left; reflexivity.
Defined.

(** ** The human player *)

Section Human.

Variable int : String.string -> option Z.
Variable self : HumanPlayer.t.
Variable board : Board.

Lemma acceptable_spec (entry : String.string) :
  acceptable int board entry = true ->
  exists col, int entry = Some col /\
    0 < col <= Z.of_nat (width board) /\
    is_valid board (Z.to_nat (col - 1)) = true.
Proof.
  unfold acceptable. destruct (int entry) as [col|]; [|discriminate].
  intros H. apply andb_prop in H as (H & V). apply andb_prop in H as (H1 & H2).
  exists col. repeat split; [lia|lia|exact V].
Qed.

Lemma ask_input_rejected (entry : String.string) (rest : list String.string) :
  acceptable int board entry = false ->
  HumanPlayer.ask_input int self board (entry :: rest)
  = (complaints int self [entry]
       ++ fst (HumanPlayer.ask_input int self board rest),
     snd (HumanPlayer.ask_input int self board rest)).
Proof.
  unfold acceptable, complaints. cbn [HumanPlayer.ask_input flat_map app].
  destruct (int entry) as [col|].
  - intros ->. now destruct (HumanPlayer.ask_input int self board rest).
  - intros _. now destruct (HumanPlayer.ask_input int self board rest).
Qed.

Lemma complaints_app (l1 l2 : list String.string) :
  complaints int self (l1 ++ l2)
  = complaints int self l1 ++ complaints int self l2.
Proof. unfold complaints. apply flat_map_app. Qed.

Lemma ask_input_accepts (rejected : list String.string)
    (entry : String.string) (col : Z) (rest : list String.string) :
  Forall (fun e => acceptable int board e = false) rejected ->
  acceptable int board entry = true -> int entry = Some col ->
  HumanPlayer.ask_input int self board (rejected ++ entry :: rest)
  = (complaints int self rejected ++ [Printed (HumanPlayer.prompt self)],
     Some (col, rest)).
Proof.
  intros Hrej Hacc Hint. induction Hrej as [|e l He _ IH].
  - cbn [app HumanPlayer.ask_input]. unfold acceptable in Hacc.
    rewrite Hint in *. now rewrite Hacc.
  - cbn [app]. rewrite (ask_input_rejected e _ He), IH. cbn [fst snd].
    change (e :: l) with ([e] ++ l). now rewrite complaints_app, <- app_assoc.
Qed.

Lemma ask_input_gives_up (entries : list String.string) :
  Forall (fun e => acceptable int board e = false) entries ->
  HumanPlayer.ask_input int self board entries
  = (complaints int self entries ++ [Printed (HumanPlayer.prompt self)], None).
Proof.
  induction 1 as [|e l He _ IH]; [reflexivity|].
  rewrite (ask_input_rejected e _ He), IH. cbn [fst snd].
  change (e :: l) with ([e] ++ l). now rewrite complaints_app, <- app_assoc.
Qed.

Lemma first_acceptable (entries : list String.string) :
  existsb (acceptable int board) entries = true ->
  exists rejected entry rest,
    entries = rejected ++ entry :: rest /\
    Forall (fun e => acceptable int board e = false) rejected /\
    acceptable int board entry = true.
Proof.
  induction entries as [|e l IH]; [discriminate|]. cbn [existsb].
  destruct (acceptable int board e) eqn:A.
  - intros _. exists [], e, l. repeat split; auto.
  - intros H. destruct (IH H) as (rej & x & rest & -> & F & Hx).
    exists (e :: rej), x, rest. repeat split; auto.
Qed.

Lemma no_legal_column_unacceptable (entries : list String.string) :
  (forall c, (c < width board)%nat -> is_valid board c = false) ->
  Forall (fun e => acceptable int board e = false) entries.
Proof.
  intros Hnone. apply Forall_forall. intros e _.
  destruct (acceptable int board e) eqn:A; [|reflexivity].
  apply acceptable_spec in A as (col & _ & Hr & V).
  rewrite Hnone in V by lia. discriminate.
Qed.

End Human.

(** X6.  [ask_input] returns the first line it is given that reads as
    the number, counted from 1, of a column of the board that is not
    full: the lines before it are consumed, each answered with one prompt
    and one complaint, and the lines after it are left unread. *)
Theorem ask_input_takes_first_acceptable
    (int : String.string -> option Z) (self : HumanPlayer.t) (board : Board)
    (rejected : list String.string) (entry : String.string)
    (rest : list String.string) :
  Forall (fun e => acceptable int board e = false) rejected ->
  acceptable int board entry = true ->
  exists col,
    int entry = Some col /\
    0 < col <= Z.of_nat (width board) /\
    is_valid board (Z.to_nat (col - 1)) = true /\
    HumanPlayer.ask_input int self board (rejected ++ entry :: rest)
    = (complaints int self rejected ++ [Printed (HumanPlayer.prompt self)],
       Some (col, rest)).
Proof.
  intros Hrej Hacc.
  destruct (acceptable_spec int board entry Hacc) as (col & Hint & Hr & V).
  exists col. repeat split; try assumption; try lia.
  now apply ask_input_accepts.
Qed.

Lemma ask_input_takes_first_acceptable_witness :
  Forall (fun e => acceptable Sample.small_int left_full_2x2 e = false)
         (firstn 3 Sample.typed) /\
  acceptable Sample.small_int left_full_2x2 (nth 3 Sample.typed
      String.EmptyString)
  = true /\
  exists col,
    Sample.small_int (nth 3 Sample.typed String.EmptyString) = Some col /\
    0 < col <= Z.of_nat (width left_full_2x2) /\
    is_valid left_full_2x2 (Z.to_nat (col - 1)) = true /\
    HumanPlayer.ask_input Sample.small_int human_one left_full_2x2
      (firstn 3 Sample.typed ++ nth 3 Sample.typed String.EmptyString :: [])
    = (complaints Sample.small_int human_one (firstn 3 Sample.typed)
         ++ [Printed (HumanPlayer.prompt human_one)],
       Some (col, [])).
Proof.
  assert (H : Forall (fun e => acceptable Sample.small_int left_full_2x2 e =
      false)
                     (firstn 3 Sample.typed)).
  { repeat constructor. }
  split; [exact H|]. split; [reflexivity|].
  apply (ask_input_takes_first_acceptable Sample.small_int human_one
           left_full_2x2 (firstn 3 Sample.typed)
           (nth 3 Sample.typed String.EmptyString) [] H).
  reflexivity.
Defined.

(** X7.  When none of the lines is acceptable, [ask_input] consumes them
    all, answers each with one prompt and one complaint, prompts once
    more and returns no column. *)
Theorem ask_input_keeps_asking
    (int : String.string -> option Z) (self : HumanPlayer.t) (board : Board)
    (entries : list String.string) :
  existsb (acceptable int board) entries = false ->
  HumanPlayer.ask_input int self board entries
  = (complaints int self entries ++ [Printed (HumanPlayer.prompt self)], None)
  /\ length (fst (HumanPlayer.ask_input int self board entries))
     = (2 * length entries + 1)%nat.
Proof.
  intros H.
  assert (F : Forall (fun e => acceptable int board e = false) entries).
  { apply Forall_forall. intros e Hin.
    destruct (acceptable int board e) eqn:A; [|reflexivity].
    assert (existsb (acceptable int board) entries = true)
      by (apply existsb_exists; eauto).
    congruence. }
  rewrite (ask_input_gives_up int self board entries F). split; [reflexivity|].
  cbn [fst]. rewrite length_app. cbn [length].
  clear. induction entries as [|e l IH]; [reflexivity|].
  unfold complaints in *. cbn [flat_map app length] in *. lia.
Qed.

Lemma ask_input_keeps_asking_witness :
  existsb (acceptable Sample.small_int full_2x2) Sample.typed = false /\
  HumanPlayer.ask_input Sample.small_int human_one full_2x2 Sample.typed
  = (complaints Sample.small_int human_one Sample.typed
       ++ [Printed (HumanPlayer.prompt human_one)], None)
  /\ length (fst (HumanPlayer.ask_input Sample.small_int human_one full_2x2
                    Sample.typed))
     = (2 * length Sample.typed + 1)%nat.
Proof.
  split; [reflexivity|].
  apply (ask_input_keeps_asking Sample.small_int human_one full_2x2
           Sample.typed).
  reflexivity.
Defined.

(** X8.  On a board without a legal column [ask_input] accepts nothing:
    whatever is typed, and however [int] reads it, no column comes
    back. *)
Theorem ask_input_never_accepts_on_full_board
    (int : String.string -> option Z) (self : HumanPlayer.t) (board : Board)
    (entries : list String.string) :
  (forall c, (c < width board)%nat -> is_valid board c = false) ->
  snd (HumanPlayer.ask_input int self board entries) = None.
Proof.
  intros Hnone.
  now rewrite (ask_input_gives_up int self board entries
                 (no_legal_column_unacceptable int board entries Hnone)).
Qed.

Lemma ask_input_never_accepts_on_full_board_witness :
  (forall c, (c < width full_2x2)%nat -> is_valid full_2x2 c = false) /\
  snd (HumanPlayer.ask_input Sample.small_int human_one full_2x2 Sample.typed)
  = None.
Proof.
  assert (H : forall c, (c < width full_2x2)%nat -> is_valid full_2x2 c =
      false).
  { intros [|[|c]] Hc; [reflexivity|reflexivity|simpl in Hc; lia]. }
  split; [exact H|].
  apply (ask_input_never_accepts_on_full_board Sample.small_int human_one
           full_2x2 Sample.typed H).
Defined.

(** X9.  When some line is acceptable, [HumanPlayer.make_move] returns a
    column counted from 0 that is on the board and legal, one less than
    the number it prints last as the selected column, and leaves the lines
    after the accepted one unread. *)
Theorem human_move_is_legal
    (int : String.string -> option Z) (str_board : Board -> String.string)
    (str_heuristic : Heuristic -> String.string)
    (str_int : Z -> String.string)
    (get_best_action : Heuristic -> Z -> Board -> Z)
    (self : HumanPlayer.t) (board : Board) (entries : list String.string) :
  existsb (acceptable int board) entries = true ->
  exists before c rejected entry rest,
    HumanPlayer.make_move int str_board str_heuristic str_int get_best_action
      self board entries
    = (before ++ [Printed (HumanPlayer.selected str_int (c + 1))],
       Some (c, rest)) /\
    0 <= c < Z.of_nat (width board) /\
    is_valid board (Z.to_nat c) = true /\
    entries = rejected ++ entry :: rest /\ int entry = Some (c + 1).
Proof.
  intros H.
  destruct (first_acceptable int board entries H)
    as (rej & entry & rest & -> & F & A).
  destruct (acceptable_spec int board entry A) as (col & Hint & Hr & V).
  exists (HumanPlayer.shown str_board str_heuristic str_int get_best_action
            self board
          ++ complaints int self rej ++ [Printed (HumanPlayer.prompt self)]),
    (col - 1), rej, entry, rest.
  unfold HumanPlayer.make_move.
  rewrite (ask_input_accepts int self board rej entry col rest F A Hint).
  replace (col - 1 + 1) with col by lia.
  repeat split; try assumption; try lia.
  now rewrite <- !app_assoc.
Qed.

Lemma human_move_is_legal_witness :
  existsb (acceptable Sample.small_int left_full_2x2) Sample.typed = true /\
  exists before c rejected entry rest,
    HumanPlayer.make_move Sample.small_int (fun _ => String.EmptyString)
      (fun _ => String.EmptyString) (fun _ => String.EmptyString)
      (fun _ _ _ => 0) human_one left_full_2x2 Sample.typed
    = (before ++ [Printed (HumanPlayer.selected (fun _ => String.EmptyString)
                             (c + 1))],
       Some (c, rest)) /\
    0 <= c < Z.of_nat (width left_full_2x2) /\
    is_valid left_full_2x2 (Z.to_nat c) = true /\
    Sample.typed = rejected ++ entry :: rest /\
    Sample.small_int entry = Some (c + 1).
Proof.
  split; [reflexivity|].
  apply (human_move_is_legal Sample.small_int (fun _ => String.EmptyString)
           (fun _ => String.EmptyString) (fun _ => String.EmptyString)
           (fun _ _ _ => 0) human_one left_full_2x2 Sample.typed).
  reflexivity.
Defined.

(** ** The experiments of [requirements.py] *)

(** *** Boards built by moves *)

Lemma drop_piece_length (col : list Z) (p : Z) :
  length (drop_piece col p) = length col.
Proof.
  induction col as [|x rest IH]; [reflexivity|]. cbn [drop_piece].
  destruct (x =? 0); cbn [length]; [reflexivity|now rewrite IH].
Qed.

Lemma drop_piece_count_own (col : list Z) (p : Z) :
  has_empty col = true -> p <> 0 ->
  length (filter (Z.eqb p) (drop_piece col p))
  = S (length (filter (Z.eqb p) col)).
Proof.
  unfold has_empty. intros H Hp.
  induction col as [|x rest IH]; [discriminate|].
  cbn [existsb drop_piece filter] in *.
  destruct (Z.eqb_spec x 0) as [->|Hx].
  - cbn [filter]. rewrite Z.eqb_refl.
    destruct (Z.eqb_spec p 0); [lia|]. reflexivity.
  - destruct (Z.eqb_spec 0 x); [lia|]. cbn [filter orb] in *.
    destruct (p =? x); cbn [length]; now rewrite (IH H).
Qed.

Lemma drop_piece_count_other (col : list Z) (p q : Z) :
  q <> p -> q <> 0 ->
  length (filter (Z.eqb q) (drop_piece col p))
  = length (filter (Z.eqb q) col).
Proof.
  intros Hq Hq0. induction col as [|x rest IH]; [reflexivity|].
  cbn [drop_piece]. destruct (Z.eqb_spec x 0) as [->|Hx].
  - cbn [filter]. destruct (Z.eqb_spec q p); [lia|].
    destruct (Z.eqb_spec q 0); [lia|]. reflexivity.
  - cbn [filter]. destruct (q =? x); cbn [length]; now rewrite IH.
Qed.

Lemma get_new_board_width (b : Board) (c : nat) (p : Z) :
  width (get_new_board b c p) = width b.
Proof.
  unfold width. revert c. induction b as [|col rest IH]; intros [|c];
    cbn [get_new_board length]; auto.
Qed.

Lemma get_new_board_lengths (b : Board) (c : nat) (p : Z) :
  map (@length Z) (get_new_board b c p) = map (@length Z) b.
Proof.
  revert c. induction b as [|col rest IH]; intros [|c];
    cbn [get_new_board map]; auto.
  - now rewrite drop_piece_length.
  - now rewrite IH.
Qed.

Lemma get_new_board_count_own (b : Board) (c : nat) (p : Z) :
  is_valid b c = true -> p <> 0 ->
  count_cells p (get_new_board b c p) = S (count_cells p b).
Proof.
  unfold is_valid, count_cells. revert c.
  induction b as [|col rest IH]; intros [|c] H Hp;
    cbn [nth get_new_board map list_sum fold_right] in *;
    try discriminate H.
  - now rewrite (drop_piece_count_own col p H Hp).
  - unfold list_sum in IH. rewrite (IH c H Hp). lia.
Qed.

Lemma get_new_board_count_other (b : Board) (c : nat) (p q : Z) :
  q <> p -> q <> 0 ->
  count_cells q (get_new_board b c p) = count_cells q b.
Proof.
  unfold count_cells. intros Hq Hq0. revert c.
  induction b as [|col rest IH]; intros [|c];
    cbn [get_new_board map list_sum fold_right]; try reflexivity.
  - now rewrite (drop_piece_count_other col p q Hq Hq0).
  - unfold list_sum in IH. now rewrite IH.
Qed.

Lemma new_board_width (w h : nat) : width (new_board w h) = w.
Proof. apply repeat_length. Qed.

Lemma new_board_lengths (w h : nat) :
  map (@length Z) (new_board w h) = repeat h w.
Proof.
  unfold new_board. induction w as [|w IH]; [reflexivity|].
  cbn [repeat map]. now rewrite repeat_length, IH.
Qed.

Lemma new_board_count (w h : nat) (p : Z) :
  p <> 0 -> count_cells p (new_board w h) = 0%nat.
Proof.
  intros Hp. unfold count_cells, new_board.
  assert (E : length (filter (Z.eqb p) (repeat 0 h)) = 0%nat).
  { induction h as [|h IH]; [reflexivity|]. cbn [repeat filter].
    destruct (Z.eqb_spec p 0); [lia|exact IH]. }
  induction w as [|w IH]; [reflexivity|].
  cbn [repeat map list_sum fold_right]. unfold list_sum in IH.
  now rewrite E, IH.
Qed.

Lemma new_board_empty_cells (w h : nat) :
  empty_cells (new_board w h) = (w * h)%nat.
Proof.
  unfold empty_cells, new_board, count_empty.
  assert (E : length (filter (Z.eqb 0) (repeat 0 h)) = h).
  { induction h as [|h IH]; [reflexivity|]. cbn [repeat filter].
    change (0 =? 0) with true. cbn [length]. now rewrite IH. }
  induction w as [|w IH]; [reflexivity|].
  cbn [repeat map list_sum fold_right]. unfold list_sum in IH.
  rewrite E, IH. lia.
Qed.

Lemma new_board_height (w h : nat) :
  (1 <= w)%nat -> height (new_board w h) = h.
Proof.
  intros Hw. unfold height, new_board. destruct w as [|w]; [lia|].
  cbn [repeat hd]. apply repeat_length.
Qed.

(** *** [random_midgame] *)

Section Midgame.

Variable SimpleHeuristic : Z -> Heuristic.
Variable Rng : Type.
Variable choice : Rng -> list nat -> nat * Rng.
Variable game_n : Z.

(** What [rng.choice] promises: an element of the sequence, when it is
    not empty. *)
Hypothesis choice_in :
  forall rng l, l <> [] -> In (fst (choice rng l)) l.

Lemma play_invariant :
  forall n rng cur player,
    player = 1 \/ player = 2 ->
    width (Requirements.play SimpleHeuristic Rng choice game_n n rng cur player)
    = width cur /\
    map (@length Z)
      (Requirements.play SimpleHeuristic Rng choice game_n n rng cur player)
    = map (@length Z) cur /\
    exists k1 k2 : nat,
      count_cells 1
        (Requirements.play SimpleHeuristic Rng choice game_n n rng cur player)
      = (count_cells 1 cur + k1)%nat /\
      count_cells 2
        (Requirements.play SimpleHeuristic Rng choice game_n n rng cur player)
      = (count_cells 2 cur + k2)%nat /\
      empty_cells cur
      = (empty_cells
           (Requirements.play SimpleHeuristic Rng choice game_n n rng cur
              player) + k1 + k2)%nat /\
      (k1 + k2 <= n)%nat /\
      (player = 1 -> (k2 <= k1 <= k2 + 1)%nat) /\
      (player = 2 -> (k1 <= k2 <= k1 + 1)%nat) /\
      (existsb
         (is_valid
            (Requirements.play SimpleHeuristic Rng choice game_n n rng cur
               player))
         (range
            (width
               (Requirements.play SimpleHeuristic Rng choice game_n n rng cur
                  player))) = true ->
       winning (SimpleHeuristic game_n)
         (get_board_state
            (Requirements.play SimpleHeuristic Rng choice game_n n rng cur
               player)) game_n = 0 ->
       (k1 + k2)%nat = n).
Proof.
  induction n as [|n IH]; intros rng cur player Hp.
  - cbn [Requirements.play]. split; [reflexivity|]. split; [reflexivity|].
    exists 0%nat, 0%nat. do 6 (split; [lia|]). reflexivity.
  - cbn [Requirements.play].
    destruct (filter (is_valid cur) (range (width cur))) as [|c0 l] eqn:L.
    + split; [reflexivity|]. split; [reflexivity|].
      exists 0%nat, 0%nat. do 6 (split; [lia|]).
      intros E _. apply some_valid_filter in E. rewrite L in E.
      simpl in E. lia.
    + assert (Hin : In (fst (choice rng (c0 :: l))) (c0 :: l))
        by (apply choice_in; discriminate).
      destruct (choice rng (c0 :: l)) as [col rng'] eqn:C. cbn [fst] in Hin.
      rewrite <- L in Hin. apply filter_In in Hin as (_ & V).
      assert (Hnz : player <> 0) by (destruct Hp; lia).
      pose proof (get_new_board_width cur col player) as Hw.
      pose proof (get_new_board_lengths cur col player) as Hl.
      pose proof (get_new_board_empty_cells cur col player V Hnz) as He.
      pose proof (get_new_board_count_own cur col player V Hnz) as Hown.
      destruct (negb (winning (SimpleHeuristic game_n)
                        (get_board_state (get_new_board cur col player))
                        game_n =? 0)) eqn:W.
      * split; [exact Hw|]. split; [exact Hl|].
        destruct Hp as [-> | ->].
        -- exists 1%nat, 0%nat.
           rewrite (get_new_board_count_other cur col 1 2) by lia.
           do 6 (split; [lia|]).
           intros _ Hwin. rewrite Hwin in W. discriminate.
        -- exists 0%nat, 1%nat.
           rewrite (get_new_board_count_other cur col 2 1) by lia.
           do 6 (split; [lia|]).
           intros _ Hwin. rewrite Hwin in W. discriminate.
      * destruct Hp as [-> | ->].
        -- change (1 =? 1) with true. cbv iota.
           destruct (IH rng' (get_new_board cur col 1) 2 (or_intror eq_refl))
             as (Rw & Rl & k1 & k2 & R1 & R2 & Re & Rn & _ & Rb & Rstop).
           split; [congruence|]. split; [congruence|].
           exists (S k1), k2.
           rewrite (get_new_board_count_other cur col 1 2) in R2 by lia.
           specialize (Rb eq_refl).
           do 6 (split; [lia|]).
           intros E Hwin. specialize (Rstop E Hwin). lia.
        -- change (2 =? 1) with false. cbv iota.
           destruct (IH rng' (get_new_board cur col 2) 1 (or_introl eq_refl))
             as (Rw & Rl & k1 & k2 & R1 & R2 & Re & Rn & Rb & _ & Rstop).
           split; [congruence|]. split; [congruence|].
           exists k1, (S k2).
           rewrite (get_new_board_count_other cur col 2 1) in R1 by lia.
           specialize (Rb eq_refl).
           do 6 (split; [lia|]).
           intros E Hwin. specialize (Rstop E Hwin). lia.
Qed.

End Midgame.

Lemma round_robin_in (rng : nat) (l : list nat) :
  l <> [] -> In (fst (round_robin rng l)) l.
Proof.
  intros Hl. unfold round_robin. cbn [fst]. apply nth_In.
  apply Nat.mod_upper_bound. destruct l; [contradiction|discriminate].
Qed.

(** X10.  Whatever [rng.choice] picks among the legal columns,
    [random_midgame] returns a board of the width and height of the board
    it is given, whose contents it ignores: at most [plies] pieces on it,
    as many of player 1 as of player 2 or one more, and all other cells
    empty. *)
Theorem random_midgame_shape_and_pieces
    (SimpleHeuristic : Z -> Heuristic) (Rng : Type) (Random : Z -> Rng)
    (choice : Rng -> list nat -> nat * Rng)
    (board : Board) (game_n plies seed : Z) :
  (forall rng l, l <> [] -> In (fst (choice rng l)) l) ->
  exists res,
    Requirements.random_midgame SimpleHeuristic Rng Random choice board game_n
      plies seed = res /\
    width res = width board /\
    Forall (fun col => length col = height board) res /\
    (count_cells 1 res + count_cells 2 res <= Z.to_nat plies)%nat /\
    (count_cells 2 res <= count_cells 1 res <= count_cells 2 res + 1)%nat /\
    (empty_cells res + count_cells 1 res + count_cells 2 res
     = width board * height board)%nat.
Proof.
  intros Hin. eexists. split; [reflexivity|].
  unfold Requirements.random_midgame. cbv zeta.
  destruct (play_invariant SimpleHeuristic Rng choice game_n Hin
              (Z.to_nat plies) (Random seed)
              (new_board (width board) (height board)) 1 (or_introl eq_refl))
    as (Rw & Rl & k1 & k2 & R1 & R2 & Re & Rn & Rb & _ & _).
  specialize (Rb eq_refl).
  rewrite new_board_count in R1, R2 by lia.
  rewrite new_board_empty_cells in Re. rewrite new_board_width in Rw.
  rewrite new_board_lengths in Rl.
  split; [exact Rw|]. split.
  - apply Forall_forall. intros col Hcol.
    apply (in_map (@length Z)) in Hcol. rewrite Rl in Hcol.
    now apply repeat_spec in Hcol.
  - rewrite R1, R2. repeat split; lia.
Qed.

Lemma random_midgame_shape_and_pieces_witness :
  (forall rng l, l <> [] -> In (fst (round_robin rng l)) l) /\
  exists res,
    Requirements.random_midgame (fun _ => positional) nat Z.to_nat round_robin
      full_2x2 3 3 0 = res /\
    width res = width full_2x2 /\
    Forall (fun col => length col = height full_2x2) res /\
    (count_cells 1 res + count_cells 2 res <= Z.to_nat 3)%nat /\
    (count_cells 2 res <= count_cells 1 res <= count_cells 2 res + 1)%nat /\
    (empty_cells res + count_cells 1 res + count_cells 2 res
     = width full_2x2 * height full_2x2)%nat.
Proof.
  split; [exact round_robin_in|].
  apply (random_midgame_shape_and_pieces (fun _ => positional) nat Z.to_nat
           round_robin full_2x2 3 3 0 round_robin_in).
Defined.

(** X11.  [random_midgame] stops before [plies] moves only for a winner
    or a full board: when the board it returns has a legal column and no
    winner, exactly [plies] pieces are on it. *)
Theorem random_midgame_stops_only_when_over
    (SimpleHeuristic : Z -> Heuristic) (Rng : Type) (Random : Z -> Rng)
    (choice : Rng -> list nat -> nat * Rng)
    (board : Board) (game_n plies seed : Z) :
  (forall rng l, l <> [] -> In (fst (choice rng l)) l) ->
  existsb
    (is_valid (Requirements.random_midgame SimpleHeuristic Rng Random choice
                 board game_n plies seed))
    (range (width (Requirements.random_midgame SimpleHeuristic Rng Random
                     choice board game_n plies seed))) = true ->
  winning (SimpleHeuristic game_n)
    (get_board_state (Requirements.random_midgame SimpleHeuristic Rng Random
                        choice board game_n plies seed)) game_n = 0 ->
  (count_cells 1 (Requirements.random_midgame SimpleHeuristic Rng Random
                    choice board game_n plies seed)
   + count_cells 2 (Requirements.random_midgame SimpleHeuristic Rng Random
                      choice board game_n plies seed))%nat
  = Z.to_nat plies.
Proof.
  intros Hin. unfold Requirements.random_midgame. cbv zeta.
  destruct (play_invariant SimpleHeuristic Rng choice game_n Hin
              (Z.to_nat plies) (Random seed)
              (new_board (width board) (height board)) 1 (or_introl eq_refl))
    as (_ & _ & k1 & k2 & R1 & R2 & _ & _ & _ & _ & Rstop).
  intros E W. rewrite new_board_count in R1, R2 by lia.
  rewrite R1, R2. now apply Rstop.
Qed.

Lemma random_midgame_stops_only_when_over_witness :
  (forall rng l, l <> [] -> In (fst (round_robin rng l)) l) /\
  existsb
    (is_valid (Requirements.random_midgame (fun _ => positional) nat Z.to_nat
                 round_robin full_2x2 3 3 0))
    (range (width (Requirements.random_midgame (fun _ => positional) nat
                     Z.to_nat round_robin full_2x2 3 3 0))) = true /\
  winning positional
    (get_board_state (Requirements.random_midgame (fun _ => positional) nat
                        Z.to_nat round_robin full_2x2 3 3 0)) 3 = 0 /\
  (count_cells 1 (Requirements.random_midgame (fun _ => positional) nat
                    Z.to_nat round_robin full_2x2 3 3 0)
   + count_cells 2 (Requirements.random_midgame (fun _ => positional) nat
                      Z.to_nat round_robin full_2x2 3 3 0))%nat
  = Z.to_nat 3.
Proof.
  split; [exact round_robin_in|]. split; [reflexivity|].
  split; [reflexivity|].
  apply (random_midgame_stops_only_when_over (fun _ => positional) nat
           Z.to_nat round_robin full_2x2 3 3 0 round_robin_in);
    reflexivity.
Defined.

(** *** [measure_one_decision] and [sweep_experiments] *)

Lemma ab_for_root_evals (self : Player) (child : Board -> Z -> Z -> M Z)
    board beta cols :
  (forall b' a' be' v t, child b' a' be' = Some (v, t) -> (1 <= n_evals t)%nat)
      ->
  forall bv bc alpha r t,
    AlphaBetaPlayer.for_root self child board cols bv bc alpha beta
    = Some (r, t) ->
    (length (filter (is_valid board) cols) <= n_evals t)%nat.
Proof.
  intros Hc. induction cols as [|c cs IH]; intros bv bc alpha r t H.
  - simpl. lia.
  - cbn [filter]. destruct (is_valid board c) eqn:V.
    + destruct (ab_for_root_child _ _ _ _ _ _ _ _ _ _ _ V H) as (v & tv & Hv).
      rewrite (ab_for_root_step self child board c cs bv bc alpha beta v tv V
          Hv)
        in H.
      destruct (AlphaBetaPlayer.for_root self child board cs _ _ _ _)
        as [[r' tr]|] eqn:E; [|discriminate].
      injection H as _ <-. apply IH in E. apply Hc in Hv.
      change (Root c v :: tr) with ([Root c v] ++ tr).
      cbn [length]. autorewrite with logs. lia.
    + rewrite ab_for_root_skip in H by assumption. eauto.
Qed.

(** [measure_one_decision] returns, with its two node counts in order. *)
Lemma measure_one_decision_total (SimpleHeuristic : Z -> Heuristic)
    (perf_counter_ns : nat -> Z) (clock : nat) (state : Board)
    (game_n depth : Z) :
  exists d,
    Requirements.measure_one_decision SimpleHeuristic perf_counter_ns clock
      state game_n depth = Some d /\
    (Requirements.nodes_alphabeta d <= Requirements.nodes_minimax d)%nat.
Proof.
  unfold Requirements.measure_one_decision. cbv zeta.
  unfold board_of_state, get_board_state.
  set (p := {| player_id := 1; game_n := game_n; depth := depth;
               heuristic := SimpleHeuristic game_n |}).
  destruct (both_search_total p state (or_introl eq_refl))
    as (v & bc & tm & ta & Hm & Ha & Hn).
  unfold MinMaxPlayer.make_move, AlphaBetaPlayer.make_move.
  rewrite (mm_make_move_of_search p _ _ _ _ _ Hm).
  rewrite (ab_make_move_of_search p _ _ _ _ _ Ha).
  eexists. split; [reflexivity|].
  cbn [Requirements.nodes_alphabeta Requirements.nodes_minimax].
  unfold eval_count. lia.
Qed.

(** X12.  For every state, win length and depth, [measure_one_decision]
    returns, with a node count for alpha-beta that is at least the number
    of legal columns of the state, since its root loop has no cutoff, and
    at most the node count for minimax. *)
Theorem measured_nodes_are_ordered (SimpleHeuristic : Z -> Heuristic)
    (perf_counter_ns : nat -> Z) (clock : nat) (state : Board)
    (game_n depth : Z) :
  exists d,
    Requirements.measure_one_decision SimpleHeuristic perf_counter_ns clock
      state game_n depth = Some d /\
    (length (legal_columns state) <= Requirements.nodes_alphabeta d)%nat /\
    (Requirements.nodes_alphabeta d <= Requirements.nodes_minimax d)%nat.
Proof.
  unfold Requirements.measure_one_decision. cbv zeta.
  unfold board_of_state, get_board_state.
  set (p := {| player_id := 1; game_n := game_n; depth := depth;
               heuristic := SimpleHeuristic game_n |}).
  destruct (both_search_total p state (or_introl eq_refl))
    as (v & bc & tm & ta & Hm & Ha & Hn).
  unfold MinMaxPlayer.make_move, AlphaBetaPlayer.make_move.
  rewrite (mm_make_move_of_search p _ _ _ _ _ Hm).
  rewrite (ab_make_move_of_search p _ _ _ _ _ Ha).
  eexists. split; [reflexivity|].
  cbn [Requirements.nodes_alphabeta Requirements.nodes_minimax].
  unfold eval_count. cbn [Nat.add]. split; [|lia].
  unfold AlphaBetaPlayer.search in Ha.
  eapply ab_for_root_evals; [|exact Ha].
  intros b' a' be' v' t'. apply ab_rec_evals.
Qed.

Lemma flat_map_length_const {A B : Type} (f : A -> list B) (k : nat)
    (l : list A) :
  (forall x, length (f x) = k) -> length (flat_map f l) = (length l * k)%nat.
Proof.
  intros Hf. induction l as [|x l IH]; [reflexivity|].
  cbn [flat_map length]. rewrite length_app, Hf, IH. lia.
Qed.

Lemma runs_length (depths : list Z) (sizes : list (nat * nat)) (Ns : list Z)
    (seeds : Z) :
  length (Requirements.runs depths sizes Ns seeds)
  = (length sizes * (length Ns * (length depths * Z.to_nat seeds)))%nat.
Proof.
  unfold Requirements.runs.
  apply flat_map_length_const. intros size.
  apply flat_map_length_const. intros n.
  apply flat_map_length_const. intros d.
  rewrite length_map. unfold range. apply length_seq.
Qed.

(** X13.  [sweep_experiments] returns one row per combination of size,
    win length, depth and seed index, in the order of its nested loops,
    each row carrying the keys of its run, and in every row alpha-beta
    has no more nodes than minimax. *)
Theorem sweep_has_a_row_per_run (SimpleHeuristic : Z -> Heuristic)
    (Rng : Type) (Random : Z -> Rng) (choice : Rng -> list nat -> nat * Rng)
    (perf_counter_ns : nat -> Z)
    (depths : list Z) (sizes : list (nat * nat)) (Ns : list Z)
    (seeds prefill_moves : Z) :
  exists rows,
    Requirements.sweep_experiments SimpleHeuristic Rng Random choice
      perf_counter_ns depths sizes Ns seeds prefill_moves = Some rows /\
    length rows
    = (length sizes * (length Ns * (length depths * Z.to_nat seeds)))%nat /\
    map (fun r => (Requirements.SweepRow.width r, Requirements.SweepRow.height
        r,
                   Requirements.SweepRow.N r, Requirements.SweepRow.depth r,
                   Requirements.SweepRow.seed r)) rows
    = Requirements.runs depths sizes Ns seeds /\
    Forall (fun r =>
              (Requirements.nodes_alphabeta (Requirements.SweepRow.res r)
               <= Requirements.nodes_minimax (Requirements.SweepRow.res r))%nat)
           rows.
Proof.
  unfold Requirements.sweep_experiments.
  assert (H : forall todo clock, exists rows,
             Requirements.rows_of SimpleHeuristic Rng Random choice
               perf_counter_ns prefill_moves clock todo = Some rows /\
             map (fun r => (Requirements.SweepRow.width r,
                 Requirements.SweepRow.height r,
                            Requirements.SweepRow.N r,
                                Requirements.SweepRow.depth r,
                            Requirements.SweepRow.seed r)) rows = todo /\
             Forall (fun r =>
                       (Requirements.nodes_alphabeta (Requirements.SweepRow.res
                           r)
                        <= Requirements.nodes_minimax (Requirements.SweepRow.res
                            r))%nat)
                    rows).
  { induction todo as [|[[[[W H] n] d] s] todo IH]; intros clock.
    - exists []. repeat split. constructor.
    - cbn [Requirements.rows_of].
      destruct (measure_one_decision_total SimpleHeuristic perf_counter_ns
                  clock
                  (Requirements.random_midgame SimpleHeuristic Rng Random
                     choice (new_board W H) n prefill_moves (10000 + s)) n d)
        as (res & -> & Hle).
      destruct (IH (clock + 4)%nat) as (rows & -> & Hk & Hall).
      eexists. split; [reflexivity|]. split.
      + cbn [map]. now rewrite Hk.
      + constructor; [exact Hle|exact Hall]. }
  destruct (H (Requirements.runs depths sizes Ns seeds) 0%nat)
    as (rows & Hr & Hk & Hall).
  exists rows. split; [exact Hr|]. split; [|split; assumption].
  rewrite <- runs_length, <- Hk. now rewrite length_map.
Qed.

(** ** Alpha-beta without a cutoff *)

Lemma n_cutoffs_Move b c p t : n_cutoffs (Move b c p :: t) = n_cutoffs t.
Proof. reflexivity. Qed.

Lemma n_cutoffs_Root c v t : n_cutoffs (Root c v :: t) = n_cutoffs t.
Proof. reflexivity. Qed.

Lemma n_cutoffs_Cutoff b c s t :
  n_cutoffs (Cutoff b c s :: t) = S (n_cutoffs t).
Proof. reflexivity. Qed.

Section NoCutoff.

Variable self : Player.

Lemma ab_for_max_no_cutoff (childm : Board -> M Z)
    (childa : Board -> Z -> Z -> M Z) b beta cols :
  (forall b' a' be' m tm r ta,
     childm b' = Some (m, tm) -> childa b' a' be' = Some (r, ta) ->
     n_cutoffs ta = 0%nat -> r = m /\ ta = tm) ->
  forall value alpha m tm r ta,
    MinMaxPlayer.for_max self childm b cols value = Some (m, tm) ->
    AlphaBetaPlayer.for_max self childa b cols value alpha beta = Some (r, ta)
        ->
    n_cutoffs ta = 0%nat -> r = m /\ ta = tm.
Proof.
  intros Hc. induction cols as [|c cs IH]; intros value alpha m tm r ta Hm Ha
      Hz.
  - injection Hm as <- <-. injection Ha as <- <-. now split.
  - destruct (is_valid b c) eqn:V.
    + apply mm_for_max_inv in Hm as (v & tv & tr & Hv & Hm & ->); [|assumption].
      destruct (ab_for_max_child _ _ _ _ _ _ _ _ _ _ V Ha) as (r1 & ta1 & Hr1).
      rewrite (ab_for_max_step self childa b c cs value alpha beta r1 ta1 V Hr1)
        in Ha.
      destruct (Z.max alpha (Z.max value r1) >=? beta).
      * injection Ha as _ <-. rewrite n_cutoffs_Move, n_cutoffs_app in Hz.
        rewrite n_cutoffs_Cutoff in Hz. lia.
      * destruct (AlphaBetaPlayer.for_max self childa b cs _ _ _)
          as [[r' tr']|] eqn:E; [|discriminate].
        injection Ha as -> <-. rewrite n_cutoffs_Move, n_cutoffs_app in Hz.
        destruct (Hc _ _ _ _ _ _ _ Hv Hr1) as (-> & ->); [lia|].
        destruct (IH _ _ _ _ _ _ Hm E) as (-> & ->); [lia|]. now split.
    + rewrite mm_for_max_skip in Hm by assumption.
      rewrite ab_for_max_skip in Ha by assumption. eauto.
Qed.

Lemma ab_for_min_no_cutoff (childm : Board -> M Z)
    (childa : Board -> Z -> Z -> M Z) b alpha cols :
  (forall b' a' be' m tm r ta,
     childm b' = Some (m, tm) -> childa b' a' be' = Some (r, ta) ->
     n_cutoffs ta = 0%nat -> r = m /\ ta = tm) ->
  forall value beta m tm r ta,
    MinMaxPlayer.for_min self childm b cols value = Some (m, tm) ->
    AlphaBetaPlayer.for_min self childa b cols value alpha beta = Some (r, ta)
        ->
    n_cutoffs ta = 0%nat -> r = m /\ ta = tm.
Proof.
  intros Hc. induction cols as [|c cs IH]; intros value beta m tm r ta Hm Ha Hz.
  - injection Hm as <- <-. injection Ha as <- <-. now split.
  - destruct (is_valid b c) eqn:V.
    + apply mm_for_min_inv in Hm as (v & tv & tr & Hv & Hm & ->); [|assumption].
      destruct (ab_for_min_child _ _ _ _ _ _ _ _ _ _ V Ha) as (r1 & ta1 & Hr1).
      rewrite (ab_for_min_step self childa b c cs value alpha beta r1 ta1 V Hr1)
        in Ha.
      destruct (alpha >=? Z.min beta (Z.min value r1)).
      * injection Ha as _ <-. rewrite n_cutoffs_Move, n_cutoffs_app in Hz.
        rewrite n_cutoffs_Cutoff in Hz. lia.
      * destruct (AlphaBetaPlayer.for_min self childa b cs _ _ _)
          as [[r' tr']|] eqn:E; [|discriminate].
        injection Ha as -> <-. rewrite n_cutoffs_Move, n_cutoffs_app in Hz.
        destruct (Hc _ _ _ _ _ _ _ Hv Hr1) as (-> & ->); [lia|].
        destruct (IH _ _ _ _ _ _ Hm E) as (-> & ->); [lia|]. now split.
    + rewrite mm_for_min_skip in Hm by assumption.
      rewrite ab_for_min_skip in Ha by assumption. eauto.
Qed.

Lemma ab_rec_no_cutoff :
  forall frames b d alpha beta mx m tm r ta,
    MinMaxPlayer.rec self frames b d mx = Some (m, tm) ->
    AlphaBetaPlayer.rec self frames b d alpha beta mx = Some (r, ta) ->
    n_cutoffs ta = 0%nat -> r = m /\ ta = tm.
Proof.
  induction frames as [|frames IH];
    intros b d alpha beta mx m tm r ta Hm Ha Hz; [discriminate|].
  cbn [MinMaxPlayer.rec] in Hm. cbn [AlphaBetaPlayer.rec] in Ha.
  change (AlphaBetaPlayer.terminal_or_depth self b d)
    with (MinMaxPlayer.terminal_or_depth self b d) in Ha.
  destruct (MinMaxPlayer.terminal_or_depth self b d).
  - change (AlphaBetaPlayer.score self b) with (MinMaxPlayer.score self b) in
      Ha.
    rewrite Hm in Ha. injection Ha as <- <-. now split.
  - destruct mx.
    + eapply ab_for_max_no_cutoff; [|exact Hm|exact Ha|exact Hz].
      intros b' a' be' m' tm' r' ta' H1 H2. cbv beta in H1, H2.
      eapply IH; eassumption.
    + eapply ab_for_min_no_cutoff; [|exact Hm|exact Ha|exact Hz].
      intros b' a' be' m' tm' r' ta' H1 H2. cbv beta in H1, H2.
      eapply IH; eassumption.
Qed.

Lemma for_root_no_cutoff (childm : Board -> M Z)
    (childa : Board -> Z -> Z -> M Z) board beta cols :
  (forall b' a' be' m tm r ta,
     childm b' = Some (m, tm) -> childa b' a' be' = Some (r, ta) ->
     n_cutoffs ta = 0%nat -> r = m /\ ta = tm) ->
  forall bv bcm bca alpha rm tm ra ta,
    MinMaxPlayer.for_root self childm board cols bv bcm = Some (rm, tm) ->
    AlphaBetaPlayer.for_root self childa board cols bv bca alpha beta
    = Some (ra, ta) ->
    n_cutoffs ta = 0%nat -> ta = tm.
Proof.
  intros Hc. induction cols as [|c cs IH];
    intros bv bcm bca alpha rm tm ra ta Hm Ha Hz.
  - injection Hm as _ <-. now injection Ha as _ <-.
  - destruct (is_valid board c) eqn:V.
    + apply mm_for_root_inv in Hm as (v & tv & tr & Hv & Hm & ->);
        [|assumption].
      destruct (ab_for_root_child _ _ _ _ _ _ _ _ _ _ _ V Ha) as (r1 & ta1 &
          Hr1).
      rewrite (ab_for_root_step self childa board c cs bv bca alpha beta r1 ta1
                 V Hr1) in Ha.
      destruct (AlphaBetaPlayer.for_root self childa board cs _ _ _ _)
        as [[r' tr']|] eqn:E; [|discriminate].
      injection Ha as _ <-.
      rewrite n_cutoffs_Move, n_cutoffs_app, n_cutoffs_Root in Hz.
      destruct (Hc _ _ _ _ _ _ _ Hv Hr1) as (-> & ->); [lia|].
      rewrite (IH _ _ _ _ _ _ _ _ Hm E) by lia. reflexivity.
    + rewrite mm_for_root_skip in Hm by assumption.
      rewrite ab_for_root_skip in Ha by assumption. eauto.
Qed.

End NoCutoff.

(** X14.  Pruning is all that separates the two searches: for a player
    with id 1 or 2, when a run of [AlphaBetaPlayer.make_move] executes no
    cutoff, it applies the same moves, evaluates the same leaves and
    obtains the same root values, in the same order, as
    [MinMaxPlayer.make_move] on that board. *)
Theorem alphabeta_without_cutoff_is_minimax (self : Player) (board : Board) :
  valid_player self ->
  exists cm tm ca ta,
    MinMaxPlayer.make_move self board = Some (cm, tm) /\
    AlphaBetaPlayer.make_move self board = Some (ca, ta) /\
    (n_cutoffs ta = 0%nat -> ta = tm).
Proof.
  intros Hp. destruct (both_search_total self board Hp)
    as (v & bc & tm & ta & Hm & Ha & _).
  eexists _, tm, _, ta.
  split; [eapply mm_make_move_of_search; exact Hm|].
  split; [eapply ab_make_move_of_search; exact Ha|].
  intros Hz. unfold MinMaxPlayer.search in Hm.
  unfold AlphaBetaPlayer.search in Ha.
  eapply (for_root_no_cutoff self); [|exact Hm|exact Ha|exact Hz].
  intros b' a' be' m' tm' r' ta' H1 H2. cbv beta in H1, H2.
  eapply ab_rec_no_cutoff; eassumption.
Qed.

Lemma alphabeta_without_cutoff_is_minimax_witness :
  valid_player (player_one positional 1) /\
  exists cm tm ca ta,
    MinMaxPlayer.make_move (player_one positional 1) empty_2x2 = Some (cm, tm)
        /\
    AlphaBetaPlayer.make_move (player_one positional 1) empty_2x2
    = Some (ca, ta) /\
    (n_cutoffs ta = 0%nat -> ta = tm).
Proof.
  split; [left; reflexivity|].
  apply (alphabeta_without_cutoff_is_minimax (player_one positional 1)
           empty_2x2).
  left; reflexivity.
Defined.
